(** * Euler integration of the Earth-Moon system: naive vs symplectic

    A shallow embedding of [main.cpp].  The C++ [double] is IEEE 754
    binary64 and is modelled by Rocq's primitive [float] (same format,
    round to nearest even); [std::vector<Object>] is a list indexed with
    stdpp's lookup and insert.  Behaviour the C++ standard leaves undefined
    (an index out of range, reading the never assigned [new_position]) is
    the [None] of the option monad. *)

From Stdlib Require Import ZArith Floats Uint63 Ascii Lia.
From stdpp Require Import base option list strings.

(* Decimal literals are rounded to the nearest binary64 value, as the C++
   compiler does. *)
Set Warnings "-inexact-float".

(** ** The part of GLM the program uses ([glm::highp_dvec2]) *)

Module glm.

Record vec2 : Set := Vec2 { x : float; y : float }.

(* operator+, operator-, unary operator-, vec * scalar, vec / scalar *)
Definition add (a b : vec2) : vec2 := Vec2 (x a + x b) (y a + y b).
Definition sub (a b : vec2) : vec2 := Vec2 (x a - x b) (y a - y b).
Definition neg (a : vec2) : vec2 := Vec2 (- x a) (- y a).
Definition scale (a : vec2) (s : float) : vec2 := Vec2 (x a * s) (y a * s).
Definition div (a : vec2) (s : float) : vec2 := Vec2 (x a / s) (y a / s).

(* compute_dot<vec<2,T,Q>>: tmp = a * b; return tmp.x + tmp.y *)
Definition dot (a b : vec2) : float :=
  let tmp := Vec2 (x a * x b) (y a * y b) in
  (x tmp + y tmp)%float.

(* gtx/norm.hpp *)
Definition length2 (v : vec2) : float := dot v v.

Definition length (v : vec2) : float := PrimFloat.sqrt (dot v v).

Definition distance (p0 p1 : vec2) : float := length (sub p1 p0).

Definition inversesqrt (s : float) : float := (1 / PrimFloat.sqrt s)%float.

Definition normalize (v : vec2) : vec2 := scale v (inversesqrt (dot v v)).

(* operator==, the comparison of doubles component by component; the program
   does not call it, Newton's third law is stated with it. *)
Definition equal (a b : vec2) : bool := ((x a =? x b) && (y a =? y b))%float.

End glm.

(** ** Constants and data *)

Definition delta_time : float := 3600.0%float.
Definition number_steps : Z := 24 * 365.
Definition gravity_constant : float := 6.674e-11%float.

Record Object : Set := mkObject {
  name : string;
  mass : float;
  position : glm.vec2;
  velocity : glm.vec2;
  force : glm.vec2
}.

Definition METHOD_NAIVE : string := "naive".
Definition METHOD_SYMPLECTIC : string := "symplectic".

(* Members left out of the brace initialisers are value-initialised. *)
Definition zero_vec : glm.vec2 := glm.Vec2 0 0.

Definition initial_objects : list Object :=
  [ mkObject "Earth" 5.9722e24 (glm.Vec2 0.0 0.0) (glm.Vec2 0.0 (-12.5)) zero_vec;
    mkObject "Moon" 7.342e22 (glm.Vec2 384405000.0 0.0) (glm.Vec2 0.0 1022.0) zero_vec ].

(** ** Loops over indices *)

(* [for (int i = ...; ...; i++) body] over the index values [idx], threading
   the vector through the iterations. *)
Fixpoint for_each {S : Type} (idx : list nat) (body : nat → S → option S) (s : S)
  : option S :=
  match idx with
  | [] => Some s
  | i :: idx' => s' ← body i s; for_each idx' body s'
  end.

(** ** The gravity phase (main.cpp lines 51-66) *)

Definition set_force (o : Object) (f : glm.vec2) : Object :=
  mkObject (name o) (mass o) (position o) (velocity o) f.

(* The value assigned to [objects[i].force]; the source's scalar [force] is
   called [force_mag] here, [force] being the field. *)
Definition pair_force (oi oj : Object) : glm.vec2 :=
  let vector := glm.sub (position oj) (position oi) in
  let direction := glm.normalize vector in
  let distance_sq := glm.length2 vector in
  let force_mag := (gravity_constant * (mass oi * mass oj) / distance_sq)%float in
  glm.scale direction force_mag.

(* One iteration of the inner loop.  The second assignment reads
   [objects[i].force] back from the vector. *)
Definition force_body (i j : nat) (objects : list Object) : option (list Object) :=
  oi ← objects !! i;
  oj ← objects !! j;
  let objects1 := <[i := set_force oi (pair_force oi oj)]> objects in
  oi1 ← objects1 !! i;
  oj1 ← objects1 !! j;
  Some (<[j := set_force oj1 (glm.neg (force oi1))]> objects1).

(* [objects.size()] never changes, so the bounds are taken once. *)
Definition compute_forces (objects : list Object) : option (list Object) :=
  let size := List.length objects in
  for_each (seq 0 size)
    (λ i, for_each (seq (i + 1) (size - (i + 1))) (λ j, force_body i j))
    objects.

(** ** The integration phase (main.cpp lines 69-89) *)

Inductive branch : Set := TakenNaive | TakenSymplectic | FallThrough.

(* [if (method == METHOD_NAIVE) ... else if (method == METHOD_SYMPLECTIC) ...] *)
Definition select_branch (method : string) : branch :=
  if String.eqb method METHOD_NAIVE then TakenNaive
  else if String.eqb method METHOD_SYMPLECTIC then TakenSymplectic
  else FallThrough.

(* [vec2 new_position;] holds no value until one of the branches assigns it. *)
Definition new_position_of (method : string) (o : Object)
    (old_velocity new_velocity : glm.vec2) : option glm.vec2 :=
  match select_branch method with
  | TakenNaive => Some (glm.add (position o) (glm.scale old_velocity delta_time))
  | TakenSymplectic => Some (glm.add (position o) (glm.scale new_velocity delta_time))
  | FallThrough => None
  end.

Definition new_velocity_of (o : Object) : glm.vec2 :=
  let acceleration := glm.div (force o) (mass o) in
  let old_velocity := velocity o in
  glm.add old_velocity (glm.scale acceleration delta_time).

Definition integrate_object (method : string) (o : Object) : option Object :=
  let old_velocity := velocity o in
  let new_velocity := new_velocity_of o in
  new_position ← new_position_of method o old_velocity new_velocity;
  Some (mkObject (name o) (mass o) new_position new_velocity (force o)).

Definition integrate_body (method : string) (i : nat) (objects : list Object)
  : option (list Object) :=
  o ← objects !! i;
  o' ← integrate_object method o;
  Some (<[i := o']> objects).

(* The integration loop run over the indices in a given order. *)
Definition integrate_in_order (method : string) (order : list nat)
    (objects : list Object) : option (list Object) :=
  for_each order (integrate_body method) objects.

Definition integrate_all (method : string) (objects : list Object)
  : option (list Object) :=
  integrate_in_order method (seq 0 (List.length objects)) objects.

(* The state change of one iteration of the outer loop. *)
Definition step (method : string) (objects : list Object) : option (list Object) :=
  objects1 ← compute_forces objects;
  integrate_all method objects1.

(** ** Output (main.cpp lines 92-95) *)

Local Open Scope Z_scope.

(* The six values streamed to [std::cout] in one iteration. *)
Record Row : Set := mkRow {
  elapsed_seconds : float;
  body0_x : float;
  body0_y : float;
  body1_x : float;
  body1_y : float;
  distance : float
}.

(* The conversion of the [int] loop counter in [step * delta_time]. *)
Definition int_to_double (n : Z) : float := PrimFloat.of_uint63 (Uint63.of_Z n).

Definition emit (step_index : Z) (objects : list Object) : option Row :=
  o0 ← objects !! 0%nat;
  o1 ← objects !! 1%nat;
  Some (mkRow (int_to_double step_index * delta_time)%float
              (glm.x (position o0)) (glm.y (position o0))
              (glm.x (position o1)) (glm.y (position o1))
              (glm.distance (position o0) (position o1))).

(** *** [operator<<(double)] with the stream's default settings

    No manipulator is applied to [std::cout], so a [double] is converted as
    by [printf("%g")] with the default precision of 6 significant digits.
    Primitive floats have a single NaN, so the sign that the C library
    prints in front of a NaN is not modelled. *)

Definition default_precision : Z := 6.

Definition digit_char (d : Z) : ascii := ascii_of_nat (48 + Z.to_nat d).

(* The [w] low decimal digits of [n], most significant first. *)
Fixpoint digits (w : nat) (n : Z) : list Z :=
  match w with
  | O => []
  | S w' => digits w' (n / 10) ++ [n mod 10]
  end.

Fixpoint strip_trailing_zeros (ds : list Z) : list Z :=
  match ds with
  | [] => []
  | d :: ds' =>
      match strip_trailing_zeros ds' with
      | [] => if d =? 0 then [] else [d]
      | t => d :: t
      end
  end.

Definition show_digits (ds : list Z) : string :=
  String.string_of_list_ascii (map digit_char ds).

Definition show_fraction (ds : list Z) : string :=
  match strip_trailing_zeros ds with
  | [] => ""
  | t => "." ++ show_digits t
  end.

Definition show_exponent (X : Z) : string :=
  "e" ++ (if X <? 0 then "-" else "+")
      ++ show_digits (digits (if Z.abs X <? 100 then 2 else 3) (Z.abs X)).

(* [num/den] divided by [10^k], as a fraction of integers. *)
Definition scale_num (k num : Z) : Z := if 0 <=? k then num else num * 10 ^ (- k).
Definition scale_den (k den : Z) : Z := if 0 <=? k then den * 10 ^ k else den.

(* Is [10^X <= num/den]? *)
Definition pow10_le (X num den : Z) : bool :=
  scale_den X den <=? scale_num X num.

(* The largest [X] below the starting point with [10^X <= num/den]. *)
Fixpoint decimal_exponent (fuel : nat) (X num den : Z) : Z :=
  match fuel with
  | O => X
  | S fuel' =>
      if pow10_le X num den then X else decimal_exponent fuel' (X - 1) num den
  end.

(* [num/den] divided by [10^k], rounded to the nearest integer, ties to even. *)
Definition round_scaled (k num den : Z) : Z :=
  let n := scale_num k num in
  let d := scale_den k den in
  let q := n / d in
  let r := n mod d in
  if (d <? 2 * r) || ((d =? 2 * r) && Z.odd q) then q + 1 else q.

(* The [P] significant digits of the positive value [num/den], as an integer,
   and the decimal exponent of its first digit.  Doubles lie between 10^-324
   and 10^309, which the search from 310 downwards covers. *)
Definition significand (P num den : Z) : Z * Z :=
  let X := decimal_exponent 640 310 num den in
  let n := round_scaled (X - (P - 1)) num den in
  if n =? 10 ^ P then (10 ^ (P - 1), X + 1) else (n, X).

(* The text of the %g conversion with [P] significant digits [n] and decimal
   exponent [X]: scientific style when [X < -4] or [X >= P], fixed style
   otherwise, trailing zeros removed. *)
Definition show_g (P n X : Z) : string :=
  let ds := digits (Z.to_nat P) n in
  if (X <? -4) || (P <=? X) then
    show_digits (take 1 ds) ++ show_fraction (drop 1 ds) ++ show_exponent X
  else if X <? 0 then
    "0" ++ show_fraction (replicate (Z.to_nat (- X - 1)) 0 ++ ds)
  else
    show_digits (take (Z.to_nat (X + 1)) ds)
      ++ show_fraction (drop (Z.to_nat (X + 1)) ds).

(* The %g conversion of a positive value. *)
Definition format_g (P num den : Z) : string :=
  let '(n, X) := significand P num den in show_g P n X.

Definition show_sign (s : bool) : string := if s then "-" else "".

(* The absolute value [m * 2^e] of a finite double, as a fraction. *)
Definition magnitude_num (m : positive) (e : Z) : Z :=
  if 0 <=? e then Z.pos m * 2 ^ e else Z.pos m.
Definition magnitude_den (e : Z) : Z :=
  if 0 <=? e then 1 else 2 ^ (- e).

Definition format_double (v : float) : string :=
  match Prim2SF v with
  | S754_nan => "nan"
  | S754_infinity s => show_sign s ++ "inf"
  | S754_zero s => show_sign s ++ "0"
  | S754_finite s m e =>
      show_sign s
      ++ format_g default_precision (magnitude_num m e) (magnitude_den e)
  end.

Definition tab : string := String (ascii_of_nat 9) "".
Definition endl : string := String (ascii_of_nat 10) "".

(* One line of standard output. *)
Definition render (r : Row) : string :=
  format_double (elapsed_seconds r) ++ tab
  ++ format_double (body0_x r) ++ tab ++ format_double (body0_y r) ++ tab
  ++ format_double (body1_x r) ++ tab ++ format_double (body1_y r) ++ tab
  ++ format_double (distance r) ++ endl.

(** ** The simulation loop and [main] *)

(* [for (int step = ...; step < number_steps; step++)], with [fuel] iterations
   left; returns the rows written and the final bodies. *)
Fixpoint simulate (method : string) (fuel : nat) (step_index : Z)
    (objects : list Object) : option (list Row * list Object) :=
  match fuel with
  | O => Some ([], objects)
  | S fuel' =>
      objects' ← step method objects;
      row ← emit step_index objects';
      rest ← simulate method fuel' (step_index + 1) objects';
      Some (row :: rest.1, rest.2)
  end.

Record Outcome : Set := mkOutcome {
  exit_status : Z;
  stdout : list string;
  stderr : list string
}.

Definition usage_missing : string :=
  "Give as argument to the program the integration method: naive or symplectic" ++ endl.
Definition usage_invalid : string :=
  "The integration method can only be: naive or symplectic" ++ endl.

(* [argv] holds the program name followed by the arguments; [argc] is its
   length. *)
Definition main (argv : list string) : option Outcome :=
  let argc := Z.of_nat (List.length argv) in
  if negb (argc =? 2) then Some (mkOutcome 1 [] [usage_missing])
  else
    method ← argv !! 1%nat;
    if negb (String.eqb method METHOD_NAIVE)
       && negb (String.eqb method METHOD_SYMPLECTIC)
    then Some (mkOutcome 1 [] [usage_invalid])
    else
      run ← simulate method (Z.to_nat number_steps) 0 initial_objects;
      Some (mkOutcome 0 (map render run.1) []).

(** ** The same program with the content of uninitialised storage explicit

    Between two runs of the program nothing differs but the name it is
    started under and what the storage of the local [new_position] holds when
    it is declared (main.cpp line 77): the program reads no file, no clock
    and no random source.  Here that content is a parameter, [garbage], which
    the two branches overwrite and the fall-through path leaves in place. *)

Definition integrate_object_in (garbage : glm.vec2) (method : string)
    (o : Object) : Object :=
  let old_velocity := velocity o in
  let new_velocity := new_velocity_of o in
  let new_position :=
    match select_branch method with
    | TakenNaive => glm.add (position o) (glm.scale old_velocity delta_time)
    | TakenSymplectic => glm.add (position o) (glm.scale new_velocity delta_time)
    | FallThrough => garbage
    end in
  mkObject (name o) (mass o) new_position new_velocity (force o).

Definition integrate_body_in (garbage : nat → glm.vec2) (method : string)
    (i : nat) (objects : list Object) : option (list Object) :=
  o ← objects !! i;
  Some (<[i := integrate_object_in (garbage i) method o]> objects).

Definition step_in (garbage : nat → glm.vec2) (method : string)
    (objects : list Object) : option (list Object) :=
  objects1 ← compute_forces objects;
  for_each (seq 0 (List.length objects1)) (integrate_body_in garbage method)
    objects1.

(* [memory step i] is the content found for body [i] in iteration [step]. *)
Fixpoint simulate_in (memory : Z → nat → glm.vec2) (method : string)
    (fuel : nat) (step_index : Z) (objects : list Object)
  : option (list Row * list Object) :=
  match fuel with
  | O => Some ([], objects)
  | S fuel' =>
      objects' ← step_in (memory step_index) method objects;
      row ← emit step_index objects';
      rest ← simulate_in memory method fuel' (step_index + 1) objects';
      Some (row :: rest.1, rest.2)
  end.

Definition main_in (memory : Z → nat → glm.vec2) (argv : list string)
  : option Outcome :=
  let argc := Z.of_nat (List.length argv) in
  if negb (argc =? 2) then Some (mkOutcome 1 [] [usage_missing])
  else
    method ← argv !! 1%nat;
    if negb (String.eqb method METHOD_NAIVE)
       && negb (String.eqb method METHOD_SYMPLECTIC)
    then Some (mkOutcome 1 [] [usage_invalid])
    else
      run ← simulate_in memory method (Z.to_nat number_steps) 0 initial_objects;
      Some (mkOutcome 0 (map render run.1) []).

(** * Definitions used in the statements *)

(* The bodies after [k] iterations of the outer loop. *)
Fixpoint state_after (method : string) (k : nat) (objects : list Object)
  : option (list Object) :=
  match k with
  | O => Some objects
  | S k' => objects' ← step method objects; state_after method k' objects'
  end.

(* The distance field of the last row written by a run. *)
Definition final_distance (method : string) : option float :=
  run ← simulate method (Z.to_nat number_steps) 0 initial_objects;
  row ← last run.1;
  Some (distance row).

(* Row [k] of a run of the program. *)
Definition row_of_run (method : string) (k : nat) : option Row :=
  run ← simulate method (Z.to_nat number_steps) 0 initial_objects;
  run.1 !! k.

(* The values of a row, in the order in which they are printed. *)
Definition fields (r : Row) : list float :=
  [elapsed_seconds r; body0_x r; body0_y r; body1_x r; body1_y r; distance r].

Definition valid_method (method : string) : Prop :=
  method = METHOD_NAIVE ∨ method = METHOD_SYMPLECTIC.

(* Everything of a body but its force. *)
Definition kinematics (o : Object) : string * float * glm.vec2 * glm.vec2 :=
  (name o, mass o, position o, velocity o).

(* A force assigned in the gravity phase: the attraction between two bodies
   of the list [objects], or its negation. *)
Definition from_snapshot (objects : list Object) (o : Object) : Prop :=
  ∃ a b, a ∈ objects ∧ b ∈ objects
    ∧ (force o = pair_force a b ∨ force o = glm.neg (pair_force a b)).

(* Every body leaves the gravity phase with its mass, position and velocity
   as before, and either untouched or with a force computed from two bodies
   of the list the phase started from. *)
Definition gravity_invariant (objects t : list Object) : Prop :=
  kinematics <$> t = kinematics <$> objects
  ∧ ∀ k o, t !! k = Some o → objects !! k = Some o ∨ from_snapshot objects o.

(* [step * delta_time] against the conversion of the integer [step * 3600],
   for every value the loop counter takes below [n]. *)
Definition elapsed_exact_below (n : nat) : bool :=
  forallb
    (λ k, PrimFloat.Leibniz.eqb (int_to_double k * delta_time)%float
            (int_to_double (k * 3600)))
    (Z.of_nat <$> seq 0 n).

(* The distance between Earth and Moon before the first step. *)
Definition initial_distance : option float :=
  o0 ← initial_objects !! 0%nat;
  o1 ← initial_objects !! 1%nat;
  Some (glm.distance (position o0) (position o1)).

Definition nan_vec : glm.vec2 := glm.Vec2 nan nan.

(* Both bodies of the reference scenario placed at the origin. *)
Definition coincident_objects : list Object :=
  [ mkObject "Earth" 5.9722e24 (glm.Vec2 0.0 0.0) (glm.Vec2 0.0 (-12.5)) zero_vec;
    mkObject "Moon" 7.342e22 (glm.Vec2 0.0 0.0) (glm.Vec2 0.0 1022.0) zero_vec ].

(* Does the step leave every velocity free of NaN? *)
Definition velocities_defined (objects : list Object) : bool :=
  forallb (λ o, negb (is_nan (glm.x (velocity o)) || is_nan (glm.y (velocity o))))
    objects.

(* [text] shows [v] rounded to [P] significant decimal digits.  For a finite
   non-zero [v] with absolute value [num/den]: [X0] is its decimal exponent,
   [10^X0 <= |v| < 10^(X0+1)]; [q] is [|v| / 10^(X0-P+1)] rounded to the
   nearest integer, ties to even; the digits [n] and the exponent [X] shown
   are [q] and [X0], or [10^(P-1)] and [X0 + 1] when the rounding carried
   into a further digit; [text] is the %g layout of [n] and [X]. *)
Definition printed_to_precision (P : Z) (v : float) (text : string) : Prop :=
  match Prim2SF v with
  | S754_nan => text = "nan"
  | S754_infinity s => text = (show_sign s ++ "inf")%string
  | S754_zero s => text = (show_sign s ++ "0")%string
  | S754_finite s m e =>
      let num := magnitude_num m e in
      let den := magnitude_den e in
      ∃ X0 q n X,
        (scale_den X0 den ≤ scale_num X0 num
         ∧ scale_num (X0 + 1) num < scale_den (X0 + 1) den)
        ∧ 2 * Z.abs (q * scale_den (X0 - (P - 1)) den
                     - scale_num (X0 - (P - 1)) num)
          ≤ scale_den (X0 - (P - 1)) den
        ∧ (2 * Z.abs (q * scale_den (X0 - (P - 1)) den
                      - scale_num (X0 - (P - 1)) num)
           = scale_den (X0 - (P - 1)) den → Z.even q = true)
        ∧ (n, X) = (if q =? 10 ^ P then (10 ^ (P - 1), X0 + 1) else (q, X0))
        ∧ 10 ^ (P - 1) ≤ n < 10 ^ P
        ∧ text = (show_sign s ++ show_g P n X)%string
  end.

(* Are all fields of all rows of the reference run finite numbers? *)
Definition all_fields_finite (method : string) : bool :=
  match simulate method (Z.to_nat number_steps) 0 initial_objects with
  | Some run => forallb (λ r, forallb is_finite (fields r)) run.1
  | None => false
  end.

(* The number of occurrences of a character in a text. *)
Fixpoint count_char (c : ascii) (s : string) : nat :=
  match s with
  | EmptyString => 0
  | String a s' => (if Ascii.eqb a c then 1 else 0) + count_char c s'
  end.

(* Do all characters of a text satisfy [P]? *)
Fixpoint all_chars (P : ascii → bool) (s : string) : bool :=
  match s with
  | EmptyString => true
  | String a s' => P a && all_chars P s'
  end.

(* The characters a printed number is made of. *)
Definition number_char (a : ascii) : bool :=
  existsb (Ascii.eqb a) (String.list_ascii_of_string "0123456789.e+-naif").

(* A list of decimal digits. *)
Definition decimal_digits (ds : list Z) : Prop := Forall (λ d, 0 ≤ d ≤ 9) ds.

Definition tab_char : ascii := ascii_of_nat 9.
Definition newline_char : ascii := ascii_of_nat 10.

(** * Lemmas *)

(** ** The method selector *)

Lemma select_branch_naive : select_branch METHOD_NAIVE = TakenNaive.
Proof. reflexivity. Qed.

Lemma select_branch_symplectic : select_branch METHOD_SYMPLECTIC = TakenSymplectic.
Proof. reflexivity. Qed.

Lemma select_branch_fall_through method :
  select_branch method = FallThrough ↔ ¬ valid_method method.
Proof.
  unfold select_branch, valid_method.
  destruct (String.eqb_spec method METHOD_NAIVE) as [->|Hn].
  - split; [discriminate | intros H; destruct H; by left].
  - destruct (String.eqb_spec method METHOD_SYMPLECTIC) as [->|Hs].
    + split; [discriminate | intros H; destruct H; by right].
    + split; [intros _ [?|?]; contradiction | done].
Qed.

Lemma integrate_object_valid method o :
  valid_method method → is_Some (integrate_object method o).
Proof.
  intros [-> | ->]; unfold integrate_object, new_position_of;
    [rewrite select_branch_naive | rewrite select_branch_symplectic];
    simpl; eauto.
Qed.

(** ** Loops *)

Lemma for_each_invariant {S : Type} (P : S → Prop) idx
    (body : nat → S → option S) (s : S) :
  P s →
  (∀ i t, i ∈ idx → P t → ∃ t', body i t = Some t' ∧ P t') →
  ∃ s', for_each idx body s = Some s' ∧ P s'.
Proof.
  revert s. induction idx as [|i idx IH]; intros s Hs Hbody; simpl.
  - eauto.
  - destruct (Hbody i s) as (t & -> & Ht); [left | done |]. simpl.
    apply IH; [done |]. intros j u Hj Hu. apply Hbody; [by right | done].
Qed.

(** ** The gravity phase only writes the [force] fields *)

Lemma kinematics_set_force o f : kinematics (set_force o f) = kinematics o.
Proof. reflexivity. Qed.

Lemma kinematics_insert_force (objects : list Object) i o f :
  objects !! i = Some o →
  kinematics <$> <[i := set_force o f]> objects = kinematics <$> objects.
Proof.
  intros Hi. rewrite list_fmap_insert, kinematics_set_force.
  apply list_insert_id. by rewrite list_lookup_fmap, Hi.
Qed.

Lemma force_body_spec i j (objects : list Object) oi oj :
  i ≠ j → objects !! i = Some oi → objects !! j = Some oj →
  force_body i j objects =
    Some (<[j := set_force oj (glm.neg (pair_force oi oj))]>
            (<[i := set_force oi (pair_force oi oj)]> objects)).
Proof.
  intros Hij Hi Hj. unfold force_body. rewrite Hi, Hj. simpl.
  rewrite list_lookup_insert_eq by eauto using lookup_lt_Some.
  rewrite list_lookup_insert_ne, Hj by done. reflexivity.
Qed.

Lemma kinematics_lookup (objects objects' : list Object) i o :
  kinematics <$> objects' = kinematics <$> objects →
  objects !! i = Some o →
  ∃ o', objects' !! i = Some o' ∧ name o' = name o ∧ mass o' = mass o
    ∧ position o' = position o ∧ velocity o' = velocity o.
Proof.
  intros Hk Hi.
  assert (H : (kinematics <$> objects') !! i = Some (kinematics o))
    by (by rewrite Hk, list_lookup_fmap, Hi).
  rewrite list_lookup_fmap in H.
  destruct (objects' !! i) as [o'|]; [|done].
  exists o'. split; [done |]. unfold kinematics in H. simpl in H.
  by injection H as -> -> -> ->.
Qed.

Lemma kinematics_length (objects objects' : list Object) :
  kinematics <$> objects' = kinematics <$> objects →
  List.length objects' = List.length objects.
Proof.
  intros Hk. rewrite <- (length_fmap kinematics objects'), Hk. apply length_fmap.
Qed.

Lemma pair_force_kinematics a a' b b' :
  kinematics a = kinematics a' → kinematics b = kinematics b' →
  pair_force a b = pair_force a' b'.
Proof.
  unfold kinematics, pair_force. intros Ha Hb.
  injection Ha as _ -> -> _. injection Hb as _ -> -> _. reflexivity.
Qed.

Lemma kinematics_lookup_inv (objects objects' : list Object) i o' :
  kinematics <$> objects' = kinematics <$> objects →
  objects' !! i = Some o' →
  ∃ o, objects !! i = Some o ∧ kinematics o' = kinematics o.
Proof.
  intros Hk Hi.
  assert (H : (kinematics <$> objects) !! i = Some (kinematics o'))
    by (by rewrite <- Hk, list_lookup_fmap, Hi).
  rewrite list_lookup_fmap in H.
  destruct (objects !! i) as [o|]; [|done].
  exists o. split; [done |]. simpl in H. symmetry. by apply (inj Some).
Qed.

Lemma force_body_invariant i j (objects t : list Object) :
  (i < j < List.length objects)%nat → gravity_invariant objects t →
  ∃ t', force_body i j t = Some t' ∧ gravity_invariant objects t'.
Proof.
  intros Hij [Hk Hprov].
  assert (Hlen := kinematics_length _ _ Hk).
  destruct (lookup_lt_is_Some_2 t i) as [oi Hi]; [lia |].
  destruct (lookup_lt_is_Some_2 t j) as [oj Hj]; [lia |].
  destruct (kinematics_lookup_inv objects t i oi Hk Hi) as (ai & Hai & Hki).
  destruct (kinematics_lookup_inv objects t j oj Hk Hj) as (aj & Haj & Hkj).
  assert (Hf : pair_force oi oj = pair_force ai aj)
    by (by apply pair_force_kinematics).
  assert (Hin : ai ∈ objects ∧ aj ∈ objects)
    by (split; eapply list_elem_of_lookup_2; eauto).
  eexists. split; [apply force_body_spec; eauto; lia |]. split.
  - rewrite kinematics_insert_force.
    + by rewrite kinematics_insert_force.
    + by rewrite list_lookup_insert_ne by lia.
  - intros k o Hko. destruct (decide (k = j)) as [->|Hkj'].
    + rewrite list_lookup_insert_eq in Hko by (rewrite length_insert; lia).
      injection Hko as <-. right. exists ai, aj. simpl. rewrite Hf. tauto.
    + rewrite list_lookup_insert_ne in Hko by done.
      destruct (decide (k = i)) as [->|Hki'].
      * rewrite list_lookup_insert_eq in Hko by lia.
        injection Hko as <-. right. exists ai, aj. simpl. rewrite Hf. tauto.
      * rewrite list_lookup_insert_ne in Hko by done. by apply Hprov.
Qed.

Lemma compute_forces_invariant (objects : list Object) :
  ∃ objects', compute_forces objects = Some objects'
    ∧ gravity_invariant objects objects'.
Proof.
  unfold compute_forces.
  apply (for_each_invariant (gravity_invariant objects)).
  { split; [done |]. intros k o Ho. by left. }
  intros i t Hi Ht. apply (for_each_invariant (gravity_invariant objects)); [done |].
  intros j u Hj Hu. apply elem_of_seq in Hi, Hj.
  apply force_body_invariant; [lia | done].
Qed.

Lemma compute_forces_kinematics (objects : list Object) :
  ∃ objects', compute_forces objects = Some objects'
    ∧ kinematics <$> objects' = kinematics <$> objects.
Proof.
  destruct (compute_forces_invariant objects) as (objects' & Hf & Hk & _).
  eauto.
Qed.

(** ** The integration phase touches one body per iteration *)

Lemma for_each_cons {S : Type} i idx (body : nat → S → option S) s :
  for_each (i :: idx) body s = body i s ≫= for_each idx body.
Proof. reflexivity. Qed.

Lemma for_each_permutation {S : Type} (body : nat → S → option S) :
  (∀ i j s, i ≠ j → body i s ≫= body j = body j s ≫= body i) →
  ∀ idx idx', idx ≡ₚ idx' → ∀ s, for_each idx body s = for_each idx' body s.
Proof.
  intros Hcomm idx idx' Hperm.
  induction Hperm as [|i idx idx' _ IH|i j idx|idx1 idx2 idx3 _ IH1 _ IH2];
    intros s.
  - reflexivity.
  - rewrite !for_each_cons. destruct (body i s); simpl; [apply IH | done].
  - destruct (decide (i = j)) as [->|Hij]; [done |].
    rewrite (for_each_cons j), (for_each_cons i).
    transitivity ((body j s ≫= body i) ≫= for_each idx body).
    + destruct (body j s); reflexivity.
    + rewrite (Hcomm j i s) by done. destruct (body i s); reflexivity.
  - by rewrite IH1.
Qed.

Lemma integrate_body_commute method i j (objects : list Object) :
  i ≠ j →
  integrate_body method i objects ≫= integrate_body method j
  = integrate_body method j objects ≫= integrate_body method i.
Proof.
  intros Hij. unfold integrate_body.
  destruct (objects !! i) as [oi|] eqn:Hi, (objects !! j) as [oj|] eqn:Hj; simpl.
  - destruct (integrate_object method oi) as [oi'|] eqn:Hoi,
             (integrate_object method oj) as [oj'|] eqn:Hoj; simpl.
    + rewrite !list_lookup_insert_ne, Hi, Hj by done. simpl.
      rewrite Hoi, Hoj. simpl. f_equal. by apply list_insert_insert_ne.
    + rewrite list_lookup_insert_ne, Hj by done. simpl. by rewrite Hoj.
    + rewrite list_lookup_insert_ne, Hi by done. simpl. by rewrite Hoi.
    + reflexivity.
  - destruct (integrate_object method oi) as [oi'|]; simpl; [|done].
    by rewrite list_lookup_insert_ne, Hj by done.
  - destruct (integrate_object method oj) as [oj'|]; simpl; [|done].
    by rewrite list_lookup_insert_ne, Hi by done.
  - reflexivity.
Qed.

Lemma integrate_in_order_permutation method order order' (objects : list Object) :
  order ≡ₚ order' →
  integrate_in_order method order objects = integrate_in_order method order' objects.
Proof.
  intros Hperm. unfold integrate_in_order.
  apply for_each_permutation; [|done].
  intros i j s Hij. by apply integrate_body_commute.
Qed.

(* Running the loop over distinct in-range indices replaces each listed body
   by its integrated state and leaves the others alone. *)
Lemma integrate_in_order_spec method order (objects : list Object) :
  valid_method method → NoDup order →
  (∀ i, i ∈ order → (i < List.length objects)%nat) →
  ∃ objects', integrate_in_order method order objects = Some objects'
    ∧ List.length objects' = List.length objects
    ∧ (∀ i o, i ∈ order → objects !! i = Some o →
         ∃ o', integrate_object method o = Some o' ∧ objects' !! i = Some o')
    ∧ (∀ i, i ∉ order → objects' !! i = objects !! i).
Proof.
  intros Hm. unfold integrate_in_order. revert objects.
  induction order as [|k order IH]; intros objects Hnd Hrange; simpl.
  - exists objects. split; [done |]. split; [done |]. split; [|done].
    intros i o Hi. by apply elem_of_nil in Hi.
  - apply NoDup_cons in Hnd as [Hk Hnd].
    destruct (lookup_lt_is_Some_2 objects k) as [ok Hok]; [apply Hrange; left |].
    destruct (integrate_object_valid method ok Hm) as [ok' Hok'].
    assert (Hb : integrate_body method k objects = Some (<[k := ok']> objects))
      by (unfold integrate_body; rewrite Hok; simpl; by rewrite Hok').
    rewrite Hb. simpl.
    destruct (IH (<[k := ok']> objects) Hnd) as (objects' & Hrun & Hlen & Hin & Hout).
    { intros i Hi. rewrite length_insert. apply Hrange. by right. }
    exists objects'. split; [done |]. rewrite length_insert in Hlen.
    split; [done |]. split.
    + intros i o Hi Ho. apply elem_of_cons in Hi as [-> | Hi].
      * exists ok'. replace o with ok by congruence. split; [done |].
        rewrite Hout by done.
        apply list_lookup_insert_eq. eauto using lookup_lt_Some.
      * apply Hin; [done |]. rewrite list_lookup_insert_ne; [done |].
        intros ->. contradiction.
    + intros i Hi. apply not_elem_of_cons in Hi as [Hik Hi].
      rewrite Hout by done. by apply list_lookup_insert_ne.
Qed.

Lemma integrate_all_spec method (objects : list Object) :
  valid_method method →
  ∃ objects', integrate_all method objects = Some objects'
    ∧ List.length objects' = List.length objects
    ∧ (∀ i o, objects !! i = Some o →
         ∃ o', integrate_object method o = Some o' ∧ objects' !! i = Some o').
Proof.
  intros Hm. unfold integrate_all.
  destruct (integrate_in_order_spec method (seq 0 (List.length objects)) objects)
    as (objects' & Hrun & Hlen & Hin & _);
    [done | apply NoDup_seq | by intros i [_ ?]%elem_of_seq |].
  exists objects'. repeat split; [done | done |].
  intros i o Ho. apply Hin; [|done].
  apply elem_of_seq. split; [lia |]. simpl. eauto using lookup_lt_Some.
Qed.

Lemma step_spec method (objects : list Object) :
  valid_method method →
  ∃ objects1 objects',
    compute_forces objects = Some objects1
    ∧ kinematics <$> objects1 = kinematics <$> objects
    ∧ step method objects = Some objects'
    ∧ List.length objects' = List.length objects
    ∧ (∀ i o1, objects1 !! i = Some o1 →
         ∃ o', integrate_object method o1 = Some o' ∧ objects' !! i = Some o').
Proof.
  intros Hm.
  destruct (compute_forces_kinematics objects) as (objects1 & Hf & Hk).
  destruct (integrate_all_spec method objects1 Hm) as (objects' & Hi & Hlen & Hin).
  exists objects1, objects'. unfold step. rewrite Hf. simpl.
  repeat split; try done. rewrite Hlen. by apply kinematics_length.
Qed.

(** ** Rows *)

Lemma emit_spec step_index (objects : list Object) :
  (2 ≤ List.length objects)%nat →
  ∃ o0 o1, objects !! 0%nat = Some o0 ∧ objects !! 1%nat = Some o1
    ∧ emit step_index objects =
        Some (mkRow (int_to_double step_index * delta_time)%float
                (glm.x (position o0)) (glm.y (position o0))
                (glm.x (position o1)) (glm.y (position o1))
                (glm.distance (position o0) (position o1))).
Proof.
  intros Hlen.
  destruct (lookup_lt_is_Some_2 objects 0) as [o0 H0]; [lia |].
  destruct (lookup_lt_is_Some_2 objects 1) as [o1 H1]; [lia |].
  exists o0, o1. unfold emit. rewrite H0, H1. done.
Qed.

(* A run of [fuel] iterations writes [fuel] rows; row [k] is emitted from the
   bodies as they are after [k + 1] steps. *)
Lemma simulate_spec method fuel step_index (objects : list Object) :
  valid_method method → (2 ≤ List.length objects)%nat →
  ∃ rows final,
    simulate method fuel step_index objects = Some (rows, final)
    ∧ List.length rows = fuel
    ∧ state_after method fuel objects = Some final
    ∧ ∀ k, (k < fuel)%nat →
        ∃ objects_k row,
          state_after method (S k) objects = Some objects_k
          ∧ List.length objects_k = List.length objects
          ∧ emit (step_index + Z.of_nat k) objects_k = Some row
          ∧ rows !! k = Some row.
Proof.
  intros Hm. revert step_index objects.
  induction fuel as [|fuel IH]; intros step_index objects Hlen.
  - exists [], objects. repeat split; try done. intros k Hk. lia.
  - destruct (step_spec method objects Hm) as (_ & objects' & _ & _ & Hstep & Hlen' & _).
    destruct (emit_spec step_index objects') as (o0 & o1 & _ & _ & Hemit); [lia |].
    destruct (IH (step_index + 1) objects') as (rows & final & Hsim & Hrows & Hfin & Hk);
      [lia |].
    eexists (_ :: rows), final. simpl. rewrite Hstep. simpl.
    rewrite Hemit, Hsim. simpl. split; [done |]. split; [by rewrite Hrows |].
    split; [done |]. intros [|k] Hlt.
    + eexists objects', _. rewrite Z.add_0_r. simpl. done.
    + destruct (Hk k) as (objects_k & row & Hst & Hl & He & Hr); [lia |].
      exists objects_k, row. split; [done |]. split; [lia |].
      split; [|done]. rewrite <- He. f_equal. lia.
Qed.

(** ** Negation of doubles *)

Lemma opp_involutive (a : float) : (- - a)%float = a.
Proof.
  apply Prim2SF_inj. rewrite !FloatAxioms.opp_spec.
  destruct (Prim2SF a) as [s|s| |s m e]; simpl; by rewrite ?negb_involutive.
Qed.

Lemma neg_involutive (v : glm.vec2) : glm.neg (glm.neg v) = v.
Proof. destruct v as [a b]. unfold glm.neg. simpl. by rewrite !opp_involutive. Qed.

Lemma compute_forces_two (o0 o1 : Object) :
  compute_forces [o0; o1] =
    Some [set_force o0 (pair_force o0 o1);
          set_force o1 (glm.neg (pair_force o0 o1))].
Proof. reflexivity. Qed.

(** ** [main] *)

Lemma main_two_arguments prog method :
  main [prog; method] =
    if negb (String.eqb method METHOD_NAIVE)
       && negb (String.eqb method METHOD_SYMPLECTIC)
    then Some (mkOutcome 1 [] [usage_invalid])
    else
      run ← simulate method (Z.to_nat number_steps) 0 initial_objects;
      Some (mkOutcome 0 (map render run.1) []).
Proof. reflexivity. Qed.

Lemma main_valid prog method :
  valid_method method →
  ∃ rows final,
    simulate method (Z.to_nat number_steps) 0 initial_objects = Some (rows, final)
    ∧ main [prog; method] = Some (mkOutcome 0 (render <$> rows) []).
Proof.
  intros Hm.
  destruct (simulate_spec method (Z.to_nat number_steps) 0 initial_objects Hm)
    as (rows & final & Hsim & _); [simpl; lia |].
  exists rows, final. split; [done |].
  rewrite main_two_arguments, Hsim.
  destruct Hm as [-> | ->]; reflexivity.
Qed.

Lemma main_usage_error (argv : list string) :
  (∀ method, argv !! 1%nat = Some method → ¬ valid_method method) →
  main argv = Some (mkOutcome 1 [] [usage_missing])
  ∨ main argv = Some (mkOutcome 1 [] [usage_invalid]).
Proof.
  intros Hsel. unfold main.
  destruct (Z.of_nat (List.length argv) =? 2) eqn:Hargc; cbn [negb];
    [|left; reflexivity].
  apply Z.eqb_eq in Hargc.
  destruct (lookup_lt_is_Some_2 argv 1) as [method Hmethod]; [lia |].
  rewrite Hmethod. cbn [mbind option_bind]. right.
  specialize (Hsel method Hmethod). unfold valid_method in Hsel.
  destruct (String.eqb_spec method METHOD_NAIVE) as [->|_]; [tauto |].
  destruct (String.eqb_spec method METHOD_SYMPLECTIC) as [->|_]; [tauto |].
  reflexivity.
Qed.

(** ** The elapsed time of a row *)

Lemma elapsed_exact_all : elapsed_exact_below (Z.to_nat number_steps) = true.
Proof. vm_compute. reflexivity. Qed.

Lemma elapsed_exact_below_spec n k :
  elapsed_exact_below n = true → 0 ≤ k < Z.of_nat n →
  (int_to_double k * delta_time)%float = int_to_double (k * 3600).
Proof.
  unfold elapsed_exact_below. rewrite forallb_forall. intros H Hk.
  apply FloatAxioms.Leibniz.eqb_spec, H.
  apply list_elem_of_In, list_elem_of_fmap. exists (Z.to_nat k).
  split; [lia |]. apply elem_of_seq. lia.
Qed.

Lemma elapsed_exact k :
  0 ≤ k < number_steps →
  (int_to_double k * delta_time)%float = int_to_double (k * 3600).
Proof.
  intros Hk. apply (elapsed_exact_below_spec (Z.to_nat number_steps)).
  - exact elapsed_exact_all.
  - rewrite Z2Nat.id; [exact Hk | discriminate].
Qed.

(** ** Coincident bodies *)

Lemma sub_diag_zero_or_nan (a : float) :
  (a - a)%float = 0%float ∨ (a - a)%float = nan.
Proof.
  assert (H : Prim2SF (a - a) = S754_zero false ∨ Prim2SF (a - a) = S754_nan).
  { rewrite FloatAxioms.sub_spec.
    destruct (Prim2SF a) as [[]|[]| |s m e]; simpl; auto.
    left. unfold SF64sub, SFsub. by rewrite Z.sub_diag. }
  destruct H as [H | H]; [left | right]; apply Prim2SF_inj; by rewrite H.
Qed.

Lemma mul_nan_l (a : float) : (nan * a)%float = nan.
Proof.
  apply Prim2SF_inj. rewrite FloatAxioms.mul_spec.
  change (Prim2SF nan) with S754_nan. by destruct (Prim2SF a).
Qed.

Lemma div_nan_l (a : float) : (nan / a)%float = nan.
Proof.
  apply Prim2SF_inj. rewrite FloatAxioms.div_spec.
  change (Prim2SF nan) with S754_nan. by destruct (Prim2SF a).
Qed.

Lemma add_nan_r (a : float) : (a + nan)%float = nan.
Proof.
  apply Prim2SF_inj. rewrite FloatAxioms.add_spec.
  change (Prim2SF nan) with S754_nan. by destruct (Prim2SF a).
Qed.

(* Normalising a zero displacement multiplies 0 by 1 / sqrt 0 = infinity. *)
Lemma normalize_diag (p : glm.vec2) : glm.normalize (glm.sub p p) = nan_vec.
Proof.
  destruct p as [a b]. unfold glm.sub. cbn [glm.x glm.y].
  destruct (sub_diag_zero_or_nan a) as [-> | ->],
           (sub_diag_zero_or_nan b) as [-> | ->]; reflexivity.
Qed.

Lemma pair_force_coincident (a b : Object) :
  position a = position b → pair_force a b = nan_vec.
Proof.
  intros Hpos. unfold pair_force. rewrite Hpos, normalize_diag.
  unfold glm.scale, nan_vec. cbn [glm.x glm.y]. by rewrite mul_nan_l.
Qed.

Lemma new_velocity_nan (o : Object) :
  force o = nan_vec → new_velocity_of o = nan_vec.
Proof.
  intros Hf. unfold new_velocity_of, glm.add, glm.scale, glm.div.
  rewrite Hf. cbn [glm.x glm.y nan_vec].
  by rewrite div_nan_l, mul_nan_l, !add_nan_r.
Qed.

Lemma integrate_all_two method (a b : Object) :
  integrate_all method [a; b] =
    a' ← integrate_object method a;
    b' ← integrate_object method b;
    Some [a'; b'].
Proof.
  unfold integrate_all, integrate_in_order, integrate_body. simpl.
  destruct (integrate_object method a); [|done]. simpl.
  by destruct (integrate_object method b).
Qed.

(** ** Printing with six significant digits *)

Lemma scale_den_pos k den : 0 < den → 0 < scale_den k den.
Proof.
  intros Hden. unfold scale_den. destruct (0 <=? k) eqn:Hk; [|done].
  apply Z.leb_le in Hk. apply Z.mul_pos_pos; [done |].
  by apply Z.pow_pos_nonneg.
Qed.

Lemma scale_num_nonneg k num : 0 ≤ num → 0 ≤ scale_num k num.
Proof.
  intros Hnum. unfold scale_num. destruct (0 <=? k) eqn:Hk; [done |].
  apply Z.leb_gt in Hk. apply Z.mul_nonneg_nonneg; [done |].
  apply Z.pow_nonneg. lia.
Qed.

(* Dividing by [10^k] is dividing by [10^(k+j)] and multiplying by [10^j]. *)
Lemma scale_shift k j num den :
  0 ≤ j →
  scale_num k num * scale_den (k + j) den
  = 10 ^ j * scale_num (k + j) num * scale_den k den.
Proof.
  intros Hj. unfold scale_num, scale_den.
  destruct (0 <=? k) eqn:Hk, (0 <=? k + j) eqn:Hkj;
    rewrite ?Z.leb_le, ?Z.leb_gt in Hk, Hkj; try lia.
  - rewrite Z.pow_add_r by lia. ring.
  - replace j with (- k + (k + j)) at 2 by lia.
    rewrite (Z.pow_add_r 10 (- k) (k + j)) by lia. ring.
  - replace (- k) with (j + - (k + j)) by lia.
    rewrite (Z.pow_add_r 10 j (- (k + j))) by lia. ring.
Qed.

(* The search stops at the first exponent, counted downwards, whose power of
   ten does not exceed the value. *)
Lemma decimal_exponent_spec fuel X0 num den low :
  X0 - Z.of_nat fuel < low ≤ X0 → pow10_le low num den = true →
  let X := decimal_exponent fuel X0 num den in
  low ≤ X ≤ X0 ∧ pow10_le X num den = true
  ∧ (X = X0 ∨ pow10_le (X + 1) num den = false).
Proof.
  revert X0. induction fuel as [|fuel IH]; intros X0 Hlow Hle; [lia |].
  simpl. destruct (pow10_le X0 num den) eqn:Htop.
  - split; [lia |]. split; [done | by left].
  - assert (low ≠ X0) by (intros ->; congruence).
    destruct (IH (X0 - 1)) as (Hrange & Hfound & Hnext); [lia | done |].
    split; [lia |]. split; [done |]. right.
    destruct Hnext as [-> | Hnext]; [|done].
    by replace (X0 - 1 + 1) with X0 by lia.
Qed.

(* Rounding to the nearest integer is off by at most one half. *)
Lemma round_scaled_error k num den :
  0 ≤ num → 0 < den →
  let n := round_scaled k num den in
  2 * Z.abs (n * scale_den k den - scale_num k num) ≤ scale_den k den
  ∧ scale_num k num / scale_den k den ≤ n ≤ scale_num k num / scale_den k den + 1.
Proof.
  intros Hnum Hden. unfold round_scaled.
  assert (Hd := scale_den_pos k den Hden).
  assert (Hn := scale_num_nonneg k num Hnum).
  set (d := scale_den k den) in *. set (m := scale_num k num) in *.
  assert (Hdiv := Z.div_mod m d ltac:(lia)).
  assert (Hmod := Z.mod_pos_bound m d Hd).
  destruct ((d <? 2 * (m mod d)) || ((d =? 2 * (m mod d)) && Z.odd (m / d)))
    eqn:Hup; cbv zeta.
  - assert (d ≤ 2 * (m mod d)).
    { apply orb_true_iff in Hup as [Hlt | Heq].
      - apply Z.ltb_lt in Hlt. lia.
      - apply andb_true_iff in Heq as [Heq _]. apply Z.eqb_eq in Heq. lia. }
    split; [|lia].
    replace ((m / d + 1) * d - m) with (d - m mod d) by lia. lia.
  - apply orb_false_iff in Hup as [Hlt _]. apply Z.ltb_ge in Hlt.
    split; [|lia].
    replace (m / d * d - m) with (- (m mod d)) by lia. lia.
Qed.

Lemma scaled_lower_bound k j num den :
  0 ≤ j → 0 < den → pow10_le (k + j) num den = true →
  10 ^ j * scale_den k den ≤ scale_num k num.
Proof.
  intros Hj Hden Hle. apply Z.leb_le in Hle.
  assert (Hshift := scale_shift k j num den Hj).
  assert (Hd := scale_den_pos k den Hden).
  assert (Hd' := scale_den_pos (k + j) den Hden).
  assert (Hp : 0 < 10 ^ j) by (by apply Z.pow_pos_nonneg).
  apply (Z.mul_le_mono_pos_r _ _ (scale_den (k + j) den)); [done |].
  rewrite Hshift.
  assert (Hpd : 0 ≤ 10 ^ j * scale_den k den) by (apply Z.mul_nonneg_nonneg; lia).
  transitivity (10 ^ j * scale_den k den * scale_num (k + j) num); [|lia].
  by apply Z.mul_le_mono_nonneg_l.
Qed.

Lemma scaled_upper_bound k j num den :
  0 ≤ j → 0 < den → pow10_le (k + j) num den = false →
  scale_num k num < 10 ^ j * scale_den k den.
Proof.
  intros Hj Hden Hle. apply Z.leb_gt in Hle.
  assert (Hshift := scale_shift k j num den Hj).
  assert (Hd := scale_den_pos k den Hden).
  assert (Hd' := scale_den_pos (k + j) den Hden).
  assert (Hp : 0 < 10 ^ j) by (by apply Z.pow_pos_nonneg).
  apply (Z.mul_lt_mono_pos_r (scale_den (k + j) den)); [done |].
  rewrite Hshift.
  assert (Hpd : 0 < 10 ^ j * scale_den k den) by (by apply Z.mul_pos_pos).
  replace (10 ^ j * scale_num (k + j) num * scale_den k den)
    with (10 ^ j * scale_den k den * scale_num (k + j) num) by lia.
  by apply Z.mul_lt_mono_pos_l.
Qed.

(* The digits printed for a value between 10^-324 and 10^311: exactly [P]
   of them, the first not zero, and the value they denote is the nearest to
   the value printed. *)
Lemma significand_spec P num den :
  1 ≤ P → 0 < num → 0 < den →
  pow10_le (-324) num den = true → pow10_le 311 num den = false →
  ∃ n X, significand P num den = (n, X)
    ∧ 10 ^ (P - 1) ≤ n < 10 ^ P
    ∧ 2 * Z.abs (n * scale_den (X - (P - 1)) den - scale_num (X - (P - 1)) num)
      ≤ scale_den (X - (P - 1)) den.
Proof.
  intros HP Hnum Hden Hlow Hhigh. unfold significand.
  destruct (decimal_exponent_spec 640 310 num den (-324)) as (_ & Hfound & Hnext);
    [lia | done |].
  set (X := decimal_exponent 640 310 num den) in *.
  assert (Hnext' : pow10_le (X + 1) num den = false)
    by (destruct Hnext as [-> | ?]; done).
  clear Hnext. set (k := X - (P - 1)).
  assert (Hlo : 10 ^ (P - 1) * scale_den k den ≤ scale_num k num).
  { apply scaled_lower_bound; [lia | done |].
    by replace (k + (P - 1)) with X by (unfold k; lia). }
  assert (Hhi : scale_num k num < 10 ^ P * scale_den k den).
  { apply scaled_upper_bound; [lia | done |].
    by replace (k + P) with (X + 1) by (unfold k; lia). }
  destruct (round_scaled_error k num den) as [Herr Hn]; [lia | done |].
  assert (Hd := scale_den_pos k den Hden).
  assert (Hq1 : 10 ^ (P - 1) ≤ scale_num k num / scale_den k den)
    by (apply Z.div_le_lower_bound; lia).
  assert (Hq2 : scale_num k num / scale_den k den < 10 ^ P)
    by (apply Z.div_lt_upper_bound; lia).
  assert (Hpow : 10 ^ P = 10 * 10 ^ (P - 1)).
  { replace P with (1 + (P - 1)) at 1 by lia. by rewrite Z.pow_add_r by lia. }
  assert (Hpp : 0 < 10 ^ (P - 1)) by (apply Z.pow_pos_nonneg; lia).
  destruct (round_scaled k num den =? 10 ^ P) eqn:Hcarry.
  - apply Z.eqb_eq in Hcarry. rewrite Hcarry in Herr.
    exists (10 ^ (P - 1)), (X + 1). split; [done |]. split; [lia |].
    replace (X + 1 - (P - 1)) with (k + 1) by (unfold k; lia).
    assert (Hshift := scale_shift k 1 num den ltac:(lia)).
    assert (Hd1 := scale_den_pos (k + 1) den Hden).
    change (10 ^ 1) with 10 in Hshift.
    set (d := scale_den k den) in *. set (m := scale_num k num) in *.
    set (d1 := scale_den (k + 1) den) in *. set (m1 := scale_num (k + 1) num) in *.
    assert (Hm : 10 * m1 * d = m * d1) by lia.
    assert (Hbound : 2 * Z.abs (10 ^ P * d - m) * d1 ≤ d * d1)
      by (apply Z.mul_le_mono_nonneg_r; lia).
    assert (Hkey : 2 * Z.abs (10 ^ (P - 1) * d1 - m1) * (10 * d) ≤ d1 * (10 * d)).
    { replace (2 * Z.abs (10 ^ (P - 1) * d1 - m1) * (10 * d))
        with (2 * Z.abs ((10 ^ (P - 1) * d1 - m1) * (10 * d))).
      - replace ((10 ^ (P - 1) * d1 - m1) * (10 * d))
          with ((10 ^ P * d - m) * d1) by (rewrite Hpow; lia).
        rewrite Z.abs_mul, (Z.abs_eq d1) by lia. nia.
      - rewrite Z.abs_mul, (Z.abs_eq (10 * d)) by lia. ring. }
    apply Z.mul_le_mono_pos_r in Hkey; [done | lia].
  - apply Z.eqb_neq in Hcarry.
    exists (round_scaled k num den), X. split; [done |]. split; [lia | done].
Qed.

(** *** The range of finite doubles *)

Lemma digits2_pos_bound (m : positive) : Z.pos m < 2 ^ Z.pos (digits2_pos m).
Proof.
  induction m as [m IH | m IH |]; simpl digits2_pos;
    rewrite ?Pos2Z.inj_succ, ?Z.pow_succ_r by lia; lia.
Qed.

Lemma finite_double_range s m e :
  valid_binary (S754_finite s m e) = true →
  Z.pos m < 2 ^ 53 ∧ -1074 ≤ e ≤ 971.
Proof.
  unfold SpecFloat.valid_binary, bounded, canonical_mantissa, fexp, emin.
  change prec with 53. change emax with 1024.
  intros [Hcanon Hmax]%andb_true_iff.
  apply Z.eqb_eq in Hcanon. apply Z.leb_le in Hmax.
  assert (Hdigits := digits2_pos_bound m).
  assert (Z.pos (digits2_pos m) ≤ 53) by lia.
  split; [|lia].
  eapply Z.lt_le_trans; [exact Hdigits |].
  apply Z.pow_le_mono_r; lia.
Qed.

Lemma magnitude_in_range m e :
  Z.pos m < 2 ^ 53 → -1074 ≤ e ≤ 971 →
  0 < magnitude_num m e ∧ 0 < magnitude_den e
  ∧ pow10_le (-324) (magnitude_num m e) (magnitude_den e) = true
  ∧ pow10_le 311 (magnitude_num m e) (magnitude_den e) = false.
Proof.
  intros Hm He. unfold magnitude_num, magnitude_den, pow10_le.
  change (scale_den (-324)) with (λ den : Z, den).
  change (scale_num (-324)) with (λ num : Z, num * 10 ^ 324).
  change (scale_den 311) with (λ den : Z, den * 10 ^ 311).
  change (scale_num 311) with (λ num : Z, num).
  cbv beta.
  assert (H1 : (2 : Z) ^ 1074 ≤ 10 ^ 324) by (vm_compute; discriminate).
  assert (H2 : (2 : Z) ^ 53 * 2 ^ 971 < 10 ^ 311) by (vm_compute; reflexivity).
  assert (H3 : (0 : Z) < 10 ^ 324) by (vm_compute; reflexivity).
  assert (H4 : (2 : Z) ^ 53 < 10 ^ 311) by (vm_compute; reflexivity).
  destruct (0 <=? e) eqn:Hsign; rewrite ?Z.leb_le, ?Z.leb_gt in Hsign.
  - assert (0 < 2 ^ e) by (apply Z.pow_pos_nonneg; lia).
    assert (2 ^ e ≤ 2 ^ 971) by (apply Z.pow_le_mono_r; lia).
    assert (Z.pos m * 2 ^ e < 2 ^ 53 * 2 ^ 971).
    { apply Z.le_lt_trans with (Z.pos m * 2 ^ 971).
      - apply Z.mul_le_mono_nonneg_l; lia.
      - apply Z.mul_lt_mono_pos_r; lia. }
    split; [lia |]. split; [lia |]. split.
    + apply Z.leb_le. nia.
    + apply Z.leb_gt. lia.
  - assert (0 < 2 ^ (- e)) by (apply Z.pow_pos_nonneg; lia).
    assert (2 ^ (- e) ≤ 2 ^ 1074) by (apply Z.pow_le_mono_r; lia).
    split; [lia |]. split; [lia |]. split.
    + apply Z.leb_le. nia.
    + apply Z.leb_gt. nia.
Qed.

Lemma round_scaled_ties_even k num den :
  0 ≤ num → 0 < den →
  let n := round_scaled k num den in
  2 * Z.abs (n * scale_den k den - scale_num k num) = scale_den k den →
  Z.even n = true.
Proof.
  intros Hnum Hden. unfold round_scaled.
  assert (Hd := scale_den_pos k den Hden).
  assert (Hn := scale_num_nonneg k num Hnum).
  set (d := scale_den k den) in *. set (m := scale_num k num) in *.
  assert (Hdiv := Z.div_mod m d ltac:(lia)).
  assert (Hmod := Z.mod_pos_bound m d Hd).
  destruct ((d <? 2 * (m mod d)) || ((d =? 2 * (m mod d)) && Z.odd (m / d)))
    eqn:Hup; cbv zeta.
  - replace ((m / d + 1) * d - m) with (d - m mod d) by lia. intros Htie.
    apply orb_true_iff in Hup as [Hlt | Heq].
    + apply Z.ltb_lt in Hlt. lia.
    + apply andb_true_iff in Heq as [_ Hodd].
      replace (m / d + 1) with (Z.succ (m / d)) by lia.
      by rewrite Z.even_succ.
  - replace (m / d * d - m) with (- (m mod d)) by lia. intros Htie.
    apply orb_false_iff in Hup as [_ Hnot].
    apply andb_false_iff in Hnot as [Hne | Hodd].
    + apply Z.eqb_neq in Hne. lia.
    + by rewrite <- Z.negb_odd, Hodd.
Qed.

Lemma magnitude_den_pos e : 0 < magnitude_den e.
Proof.
  unfold magnitude_den. destruct (0 <=? e) eqn:He; [done |].
  apply Z.leb_gt in He. apply Z.pow_pos_nonneg; lia.
Qed.

(* Exactly one exponent [X] has [10^X <= num/den < 10^(X+1)]. *)
Lemma decimal_exponent_unique X X' num den :
  0 < den →
  scale_den X den ≤ scale_num X num →
  scale_num (X + 1) num < scale_den (X + 1) den →
  scale_den X' den ≤ scale_num X' num →
  scale_num (X' + 1) num < scale_den (X' + 1) den →
  X = X'.
Proof.
  intros Hden Hle Hlt Hle' Hlt'.
  assert (Hdown : ∀ Y j, 0 ≤ j → scale_den (Y + j) den ≤ scale_num (Y + j) num →
            scale_den Y den ≤ scale_num Y num).
  { intros Y j Hj HY.
    assert (H := scaled_lower_bound Y j num den Hj Hden).
    unfold pow10_le in H. rewrite Z.leb_le in H. specialize (H HY).
    assert (Hd := scale_den_pos Y den Hden).
    assert (Hp : 1 ≤ 10 ^ j) by (apply Z.lt_pred_le, Z.pow_pos_nonneg; lia).
    nia. }
  destruct (Z.lt_trichotomy X X') as [Hcmp | [Hcmp | Hcmp]]; [|done|].
  - assert (H := Hdown (X + 1) (X' - (X + 1)) ltac:(lia)).
    replace (X + 1 + (X' - (X + 1))) with X' in H by lia. specialize (H Hle'). lia.
  - assert (H := Hdown (X' + 1) (X - (X' + 1)) ltac:(lia)).
    replace (X' + 1 + (X - (X' + 1))) with X in H by lia. specialize (H Hle). lia.
Qed.

(* Exactly one integer is nearest to [m/d], ties going to the even one. *)
Lemma nearest_even_unique d m q q' :
  0 < d →
  2 * Z.abs (q * d - m) ≤ d → (2 * Z.abs (q * d - m) = d → Z.even q = true) →
  2 * Z.abs (q' * d - m) ≤ d → (2 * Z.abs (q' * d - m) = d → Z.even q' = true) →
  q = q'.
Proof.
  intros Hd Hq Heven Hq' Heven'.
  assert (Hstep : ∀ a b, a < b → 2 * Z.abs (a * d - m) ≤ d →
            2 * Z.abs (b * d - m) ≤ d →
            b = a + 1 ∧ 2 * Z.abs (a * d - m) = d ∧ 2 * Z.abs (b * d - m) = d).
  { intros a b Hab Ha Hb.
    assert (a * d + d ≤ b * d) by nia.
    assert (b = a + 1) by nia. subst b. lia. }
  destruct (Z.lt_trichotomy q q') as [Hcmp | [Hcmp | Hcmp]]; [|done|].
  - destruct (Hstep q q' Hcmp Hq Hq') as (-> & Ht & Ht').
    specialize (Heven Ht). specialize (Heven' Ht').
    replace (q + 1) with (Z.succ q) in Heven' by lia.
    rewrite Z.even_succ, <- Z.negb_even, Heven in Heven'. discriminate.
  - destruct (Hstep q' q Hcmp Hq' Hq) as (-> & Ht' & Ht).
    specialize (Heven Ht). specialize (Heven' Ht').
    replace (q' + 1) with (Z.succ q') in Heven by lia.
    rewrite Z.even_succ, <- Z.negb_even, Heven' in Heven. discriminate.
Qed.

(* What [significand] computes for a value between 10^-324 and 10^311. *)
Lemma significand_rounds P num den :
  1 ≤ P → 0 < num → 0 < den →
  pow10_le (-324) num den = true → pow10_le 311 num den = false →
  ∃ X0 q n X,
    (scale_den X0 den ≤ scale_num X0 num
     ∧ scale_num (X0 + 1) num < scale_den (X0 + 1) den)
    ∧ 2 * Z.abs (q * scale_den (X0 - (P - 1)) den - scale_num (X0 - (P - 1)) num)
      ≤ scale_den (X0 - (P - 1)) den
    ∧ (2 * Z.abs (q * scale_den (X0 - (P - 1)) den - scale_num (X0 - (P - 1)) num)
       = scale_den (X0 - (P - 1)) den → Z.even q = true)
    ∧ (n, X) = (if q =? 10 ^ P then (10 ^ (P - 1), X0 + 1) else (q, X0))
    ∧ 10 ^ (P - 1) ≤ n < 10 ^ P
    ∧ significand P num den = (n, X).
Proof.
  intros HP Hnum Hden Hlow Hhigh.
  destruct (significand_spec P num den HP Hnum Hden Hlow Hhigh)
    as (n & X & Hsig & Hn & _).
  destruct (decimal_exponent_spec 640 310 num den (-324)) as (_ & Hfound & Hnext);
    [lia | done |].
  assert (Hnext' : pow10_le (decimal_exponent 640 310 num den + 1) num den = false)
    by (destruct Hnext as [-> | ?]; done).
  unfold pow10_le in Hfound, Hnext'.
  apply Z.leb_le in Hfound. apply Z.leb_gt in Hnext'.
  destruct (round_scaled_error (decimal_exponent 640 310 num den - (P - 1)) num den)
    as [Herr _]; [lia | done |].
  assert (Htie := round_scaled_ties_even
                    (decimal_exponent 640 310 num den - (P - 1)) num den
                    ltac:(lia) Hden).
  exists (decimal_exponent 640 310 num den),
         (round_scaled (decimal_exponent 640 310 num den - (P - 1)) num den), n, X.
  split; [done |]. split; [exact Herr |]. split; [exact Htie |].
  split; [by rewrite <- Hsig |]. done.
Qed.

Lemma format_double_precision (v : float) :
  printed_to_precision default_precision v (format_double v).
Proof.
  unfold printed_to_precision, format_double.
  assert (Hvalid := Prim2SF_valid v).
  destruct (Prim2SF v) as [s|s| |s m e]; try reflexivity.
  apply finite_double_range in Hvalid as [Hm He].
  destruct (magnitude_in_range m e Hm He) as (Hnum & Hden & Hlow & Hhigh).
  destruct (significand_rounds default_precision _ _ ltac:(done) Hnum Hden Hlow Hhigh)
    as (X0 & q & n & X & HX0 & Herr & Htie & Hnx & Hn & Hsig).
  exists X0, q, n, X. unfold format_g. rewrite Hsig. done.
Qed.

(* The conditions leave one text only. *)
Lemma printed_to_precision_unique P v (t t' : string) :
  printed_to_precision P v t → printed_to_precision P v t' → t = t'.
Proof.
  unfold printed_to_precision.
  destruct (Prim2SF v) as [s|s| |s m e]; try congruence.
  cbv zeta.
  intros (X0 & q & n & X & [Hle Hlt] & Herr & Htie & Hnx & _ & ->)
         (X0' & q' & n' & X' & [Hle' Hlt'] & Herr' & Htie' & Hnx' & _ & ->).
  assert (Hden := magnitude_den_pos e).
  assert (X0 = X0') as <-
    by (by apply (decimal_exponent_unique _ _ (magnitude_num m e) (magnitude_den e))).
  assert (q = q') as <-.
  { apply (nearest_even_unique (scale_den (X0 - (P - 1)) (magnitude_den e))
             (scale_num (X0 - (P - 1)) (magnitude_num m e))); try done.
    by apply scale_den_pos. }
  rewrite <- Hnx in Hnx'. by injection Hnx' as -> ->.
Qed.

(* The text of a coarser rounding is refused: 999996 is shown with all its
   six digits, not as 1e+06. *)
Lemma six_digits_not_coarser : ¬ printed_to_precision 6 999996%float "1e+06".
Proof.
  intros H.
  assert (H' := printed_to_precision_unique 6 _ _ _ H (format_double_precision _)).
  vm_compute in H'. discriminate H'.
Qed.

Lemma reference_fields_finite method rows final :
  valid_method method →
  simulate method (Z.to_nat number_steps) 0 initial_objects = Some (rows, final) →
  ∀ r, r ∈ rows → forallb is_finite (fields r) = true.
Proof.
  intros Hm Hsim r Hr.
  assert (H : all_fields_finite method = true)
    by (destruct Hm as [-> | ->]; vm_compute; reflexivity).
  unfold all_fields_finite in H. rewrite Hsim in H. cbn [fst] in H.
  rewrite forallb_forall in H. apply H. by apply list_elem_of_In.
Qed.

(** ** The gravity phase for any number of bodies *)

Lemma for_each_seq_invariant {S : Type} (P : nat → S → Prop) start len
    (body : nat → S → option S) (s : S) :
  P start s →
  (∀ i t, (start ≤ i < start + len)%nat → P i t →
     ∃ t', body i t = Some t' ∧ P (Datatypes.S i) t') →
  ∃ s', for_each (seq start len) body s = Some s' ∧ P (start + len)%nat s'.
Proof.
  revert start s. induction len as [|len IH]; intros start s Hs Hbody; simpl.
  - exists s. by rewrite Nat.add_0_r.
  - destruct (Hbody start s) as (t & -> & Ht); [lia | done |]. simpl.
    destruct (IH (Datatypes.S start) t) as (s' & Hrun & Hs'); [done | |].
    + intros i u Hi Hu. apply Hbody; [lia | done].
    + exists s'. split; [done |].
      by replace (start + Datatypes.S len)%nat with (Datatypes.S start + len)%nat by lia.
Qed.

(* The inner loop for body [i], below the last body: when it ends, body [i]
   is left with the attraction towards the last body, the last body with
   its negation, and the bodies before [i] are as they were. *)
Lemma inner_loop_last_pair (objects t : list Object) olast i ai :
  let n := List.length objects in
  (i < n - 1)%nat → objects !! (n - 1)%nat = Some olast → objects !! i = Some ai →
  kinematics <$> t = kinematics <$> objects →
  ∃ u, for_each (seq (i + 1) (n - (i + 1))) (λ j, force_body i j) t = Some u
    ∧ kinematics <$> u = kinematics <$> objects
    ∧ (∀ k, (k < i)%nat → u !! k = t !! k)
    ∧ (∃ o', u !! i = Some o' ∧ force o' = pair_force ai olast)
    ∧ (∃ o', u !! (n - 1)%nat = Some o' ∧ force o' = glm.neg (pair_force ai olast)).
Proof.
  intros n Hi Hlast Hai Hkin.
  set (R := λ (j : nat) (u : list Object),
         kinematics <$> u = kinematics <$> objects
         ∧ (∀ k, (k < i)%nat → u !! k = t !! k)
         ∧ (j = n →
            (∃ o', u !! i = Some o' ∧ force o' = pair_force ai olast)
            ∧ (∃ o', u !! (n - 1)%nat = Some o'
                 ∧ force o' = glm.neg (pair_force ai olast)))).
  destruct (for_each_seq_invariant R (i + 1) (n - (i + 1))
              (λ j, force_body i j) t) as (u & Hrun & Hu).
  { split; [done |]. split; [done |]. intros Heq. lia. }
  { intros j u Hj (Hk & Hbelow & _).
    assert (Hlen := kinematics_length _ _ Hk). fold n in Hlen.
    destruct (lookup_lt_is_Some_2 u i) as [oi Hoi]; [lia |].
    destruct (lookup_lt_is_Some_2 u j) as [oj Hoj]; [lia |].
    eexists. split; [apply force_body_spec; eauto; lia |].
    split; [|split].
    - rewrite kinematics_insert_force.
      + by rewrite kinematics_insert_force.
      + by rewrite list_lookup_insert_ne by lia.
    - intros k Hki. rewrite !list_lookup_insert_ne by lia. by apply Hbelow.
    - intros Hend. assert (j = (n - 1)%nat) as -> by lia.
      destruct (kinematics_lookup_inv objects u i oi Hk Hoi) as (ai' & Hai' & Hki).
      destruct (kinematics_lookup_inv objects u (n - 1) oj Hk Hoj)
        as (olast' & Hlast' & Hkl).
      replace ai' with ai in Hki by congruence.
      replace olast' with olast in Hkl by congruence.
      rewrite (pair_force_kinematics oi ai oj olast Hki Hkl). split.
      + eexists. split.
        * rewrite list_lookup_insert_ne by lia.
          apply list_lookup_insert_eq. lia.
        * reflexivity.
      + eexists. split.
        * apply list_lookup_insert_eq. rewrite length_insert. lia.
        * reflexivity. }
  replace (i + 1 + (n - (i + 1)))%nat with n in Hu by lia.
  destruct Hu as (Hk & Hbelow & Hend). destruct (Hend eq_refl) as [Hfi Hfl].
  exists u. done.
Qed.

(* With two bodies or more: every body but the last ends the gravity phase
   with the attraction towards the last body, the last body with the negated
   attraction of the body before it. *)
Lemma compute_forces_last_pair (objects : list Object) olast :
  (2 ≤ List.length objects)%nat →
  objects !! (List.length objects - 1)%nat = Some olast →
  ∃ objects',
    compute_forces objects = Some objects'
    ∧ kinematics <$> objects' = kinematics <$> objects
    ∧ (∀ k ok, (k < List.length objects - 1)%nat → objects !! k = Some ok →
         ∃ o', objects' !! k = Some o' ∧ force o' = pair_force ok olast)
    ∧ (∀ oprev, objects !! (List.length objects - 2)%nat = Some oprev →
         ∃ o', objects' !! (List.length objects - 1)%nat = Some o'
           ∧ force o' = glm.neg (pair_force oprev olast)).
Proof.
  intros Hn Hlast. unfold compute_forces.
  set (n := List.length objects) in *.
  set (Q := λ (m : nat) (t : list Object),
         kinematics <$> t = kinematics <$> objects
         ∧ (∀ k ok, (k < m)%nat → (k < n - 1)%nat → objects !! k = Some ok →
              ∃ o', t !! k = Some o' ∧ force o' = pair_force ok olast)
         ∧ ((1 ≤ m)%nat → ∀ oprev,
              objects !! (Nat.min (m - 1) (n - 2)) = Some oprev →
              ∃ o', t !! (n - 1)%nat = Some o'
                ∧ force o' = glm.neg (pair_force oprev olast))).
  destruct (for_each_seq_invariant Q 0 n
              (λ i, for_each (seq (i + 1) (n - (i + 1))) (λ j, force_body i j))
              objects) as (objects' & Hrun & Hk & Hbody & Hend).
  { split; [done |]. split; [intros k ok Hk; lia | intros Hm; lia]. }
  { intros i t Hi (Hk & Hdone & Hprev).
    destruct (decide (i = (n - 1)%nat)) as [-> | Hne].
    - replace (n - (n - 1 + 1))%nat with 0%nat by lia.
      exists t. split; [reflexivity |]. split; [done |]. split.
      + intros k ok Hk1 Hk2. apply Hdone; [lia | done].
      + intros _ oprev Hoprev. apply Hprev; [lia |].
        by replace (Nat.min (n - 1 - 1) (n - 2)) with
             (Nat.min (Datatypes.S (n - 1) - 1) (n - 2)) by lia.
    - destruct (lookup_lt_is_Some_2 objects i) as [ai Hai]; [fold n; lia |].
      destruct (inner_loop_last_pair objects t olast i ai)
        as (u & Hu & Hku & Hbelow & Hfi & Hfl); try done; [fold n; lia |].
      fold n in Hu, Hfl. exists u. split; [exact Hu |]. split; [done |]. split.
      + intros k ok Hk1 Hk2 Hok. destruct (decide (k = i)) as [-> | Hki].
        * by replace ok with ai by congruence.
        * rewrite Hbelow by lia. apply Hdone; [lia | done | done].
      + intros _ oprev Hoprev.
        replace (Nat.min (Datatypes.S i - 1) (n - 2)) with i in Hoprev by lia.
        by replace oprev with ai by congruence. }
  exists objects'. split; [exact Hrun |]. split; [done |]. split.
  - intros k ok Hk1 Hok. apply Hbody; [lia | done | done].
  - intros oprev Hoprev. apply Hend; [lia |].
    by replace (Nat.min (0 + n - 1) (n - 2)) with (n - 2)%nat by lia.
Qed.

(** ** Uninitialised storage is never read *)

Lemma for_each_ext {S : Type} (body1 body2 : nat → S → option S) idx (s : S) :
  (∀ i t, body1 i t = body2 i t) →
  for_each idx body1 s = for_each idx body2 s.
Proof.
  intros Hext. revert s. induction idx as [|i idx IH]; intros s; simpl; [done |].
  rewrite Hext. destruct (body2 i s); simpl; [apply IH | done].
Qed.

Lemma integrate_object_in_valid garbage method o :
  valid_method method →
  integrate_object method o = Some (integrate_object_in garbage method o).
Proof.
  intros [-> | ->]; unfold integrate_object, integrate_object_in, new_position_of;
    [rewrite select_branch_naive | rewrite select_branch_symplectic]; reflexivity.
Qed.

Lemma step_in_valid garbage method (objects : list Object) :
  valid_method method → step_in garbage method objects = step method objects.
Proof.
  intros Hm. unfold step_in, step, integrate_all, integrate_in_order.
  destruct (compute_forces objects) as [objects1|]; [|done].
  cbn [mbind option_bind]. apply for_each_ext. intros i t.
  unfold integrate_body_in, integrate_body.
  destruct (t !! i) as [o|]; [|done]. cbn [mbind option_bind].
  by rewrite (integrate_object_in_valid (garbage i) method o Hm).
Qed.

Lemma simulate_in_valid memory method fuel step_index (objects : list Object) :
  valid_method method →
  simulate_in memory method fuel step_index objects
  = simulate method fuel step_index objects.
Proof.
  intros Hm. revert step_index objects.
  induction fuel as [|fuel IH]; intros step_index objects; [done |].
  cbn [simulate_in simulate]. rewrite (step_in_valid _ method objects Hm).
  destruct (step method objects) as [objects'|]; [|done].
  cbn [mbind option_bind].
  destruct (emit step_index objects') as [row|]; [|done].
  cbn [mbind option_bind]. by rewrite IH.
Qed.

(* The validation in [main] lets no other method reach the loop. *)
Lemma main_in_main memory (argv : list string) : main_in memory argv = main argv.
Proof.
  unfold main_in, main. generalize (Z.to_nat number_steps). intros n.
  destruct (negb (Z.of_nat (List.length argv) =? 2)); [reflexivity |].
  destruct (argv !! 1%nat) as [method|]; [|reflexivity].
  cbn [mbind option_bind].
  destruct (String.eqb_spec method METHOD_NAIVE) as [-> | Hn].
  - cbn [negb andb]. rewrite simulate_in_valid by (left; reflexivity).
    reflexivity.
  - destruct (String.eqb_spec method METHOD_SYMPLECTIC) as [-> | Hs];
      cbn [negb andb]; [|reflexivity].
    rewrite simulate_in_valid by (right; reflexivity). reflexivity.
Qed.

(* Without the validation the content of the storage would reach the output:
   under a method that is neither "naive" nor "symplectic", two runs that
   find different content write different rows. *)
Lemma unvalidated_method_shows_garbage :
  simulate_in (λ _ _, glm.Vec2 0 0) "rk4" 1 0 initial_objects
  ≠ simulate_in (λ _ _, glm.Vec2 1 1) "rk4" 1 0 initial_objects.
Proof.
  intros H.
  apply (f_equal (λ run, from_option
                   (λ r : list Row * list Object,
                      from_option (λ row, PrimFloat.Leibniz.eqb (body0_x row) 0)
                        false (r.1 !! 0%nat))
                   false run)) in H.
  vm_compute in H. discriminate H.
Qed.

(** * The claims *)

(** C1: in every step and for every body, the new velocity is the old
    velocity plus (force / mass) * time step; the new position is the old
    position plus the old velocity times the time step under the naive
    method, and plus the new velocity times the time step under the
    symplectic method; the step stores both in the body. *)
Theorem step_updates_velocity_then_position method (objects : list Object) :
  valid_method method →
  ∃ objects1 objects',
    compute_forces objects = Some objects1
    ∧ step method objects = Some objects'
    ∧ List.length objects' = List.length objects
    ∧ ∀ i old, objects !! i = Some old →
        ∃ o1 o', objects1 !! i = Some o1 ∧ objects' !! i = Some o'
          ∧ mass o' = mass old
          ∧ velocity o' =
              glm.add (velocity old)
                (glm.scale (glm.div (force o1) (mass old)) delta_time)
          ∧ (method = METHOD_NAIVE →
               position o' =
                 glm.add (position old) (glm.scale (velocity old) delta_time))
          ∧ (method = METHOD_SYMPLECTIC →
               position o' =
                 glm.add (position old) (glm.scale (velocity o') delta_time)).
Proof.
  intros Hm.
  destruct (step_spec method objects Hm)
    as (objects1 & objects' & Hf & Hk & Hstep & Hlen & Hint).
  exists objects1, objects'. do 3 (split; [done |]).
  intros i old Hold.
  destruct (kinematics_lookup objects objects1 i old Hk Hold)
    as (o1 & Ho1 & _ & Hmass & Hpos & Hvel).
  destruct (Hint i o1 Ho1) as (o' & Ho' & Hlook).
  exists o1, o'. do 2 (split; [done |]).
  unfold integrate_object, new_position_of, new_velocity_of in Ho'.
  destruct Hm as [-> | ->];
    [rewrite select_branch_naive in Ho' | rewrite select_branch_symplectic in Ho'];
    simpl in Ho'; injection Ho' as <-; simpl;
    rewrite Hmass, Hpos, Hvel; (split; [done |]); (split; [done |]);
    split; intros Heq; try done; discriminate Heq.
Qed.

Lemma step_updates_velocity_then_position_witness :
  valid_method METHOD_SYMPLECTIC
  ∧ ∃ objects', step METHOD_SYMPLECTIC initial_objects = Some objects'
      ∧ List.length objects' = 2%nat.
Proof.
  assert (Hm : valid_method METHOD_SYMPLECTIC) by (right; reflexivity).
  split; [exact Hm |].
  destruct (step_updates_velocity_then_position METHOD_SYMPLECTIC initial_objects Hm)
    as (_ & objects' & _ & Hstep & Hlen & _).
  exists objects'. split; [exact Hstep | exact Hlen].
Defined.

(** C2: a run with a valid method exits with status 0 after writing exactly
    [number_steps] = 8760 lines, one per step.  Line [k] consists of six
    fields separated by tabs, in this order: the elapsed time
    [k * delta_time] (which is exactly [3600 k]), x and y of body 0, x and y
    of body 1, and the Euclidean distance between the two positions, all
    read from the bodies as they are after the update of step [k]. *)
Theorem run_writes_one_row_per_step prog method :
  valid_method method →
  ∃ out, main [prog; method] = Some out
    ∧ exit_status out = 0
    ∧ Z.of_nat (List.length (stdout out)) = number_steps
    ∧ number_steps = 8760
    ∧ ∀ k, 0 ≤ k < number_steps →
        ∃ o0 o1,
          state_after method (S (Z.to_nat k)) initial_objects = Some [o0; o1]
          ∧ stdout out !! Z.to_nat k =
              Some (format_double (int_to_double k * delta_time) ++ tab
                    ++ format_double (glm.x (position o0)) ++ tab
                    ++ format_double (glm.y (position o0)) ++ tab
                    ++ format_double (glm.x (position o1)) ++ tab
                    ++ format_double (glm.y (position o1)) ++ tab
                    ++ format_double
                         (PrimFloat.sqrt
                            (let dx := (glm.x (position o1) - glm.x (position o0))%float in
                             let dy := (glm.y (position o1) - glm.y (position o0))%float in
                             dx * dx + dy * dy)%float)
                    ++ endl)%string
          ∧ (int_to_double k * delta_time)%float = int_to_double (k * 3600).
Proof.
  intros Hm.
  destruct (main_valid prog method Hm) as (rows & final & Hsim & Hmain).
  destruct (simulate_spec method (Z.to_nat number_steps) 0 initial_objects Hm)
    as (rows' & final' & Hsim' & Hlen & _ & Hrows); [simpl; lia |].
  rewrite Hsim in Hsim'. injection Hsim' as <- <-.
  assert (Hn : 0 ≤ number_steps) by (unfold number_steps; lia).
  eexists. split; [exact Hmain |]. cbn [exit_status stdout].
  split; [done |]. split; [rewrite length_fmap, Hlen; lia |].
  split; [reflexivity |].
  intros k Hk.
  destruct (Hrows (Z.to_nat k)) as (objects_k & row & Hst & Hl & He & Hr); [lia |].
  destruct objects_k as [|o0 [|o1 [|]]]; try discriminate Hl.
  exists o0, o1. split; [exact Hst |]. split; [|by apply elapsed_exact].
  rewrite list_lookup_fmap, Hr. cbn [fmap option_fmap option_map].
  rewrite Z.add_0_l, Z2Nat.id in He by lia.
  injection He as <-. reflexivity.
Qed.

Lemma run_writes_one_row_per_step_witness :
  valid_method METHOD_NAIVE
  ∧ ∃ out, main ["Integration"; METHOD_NAIVE] = Some out
      ∧ exit_status out = 0
      ∧ Z.of_nat (List.length (stdout out)) = 8760.
Proof.
  assert (Hm : valid_method METHOD_NAIVE) by (left; reflexivity).
  split; [exact Hm |].
  destruct (run_writes_one_row_per_step "Integration" METHOD_NAIVE Hm)
    as (out & Hmain & Hexit & Hlen & Hsteps & _).
  exists out. rewrite <- Hsteps. auto.
Defined.

(** C3: for two bodies, after the gravity phase of a step the force of
    body 1 is the componentwise negation of the force of body 0, as the same
    doubles with the sign flipped, and conversely; unless a component is
    NaN, [force[0] == -force[1]] compares true. *)
Theorem newton_third_law_exact (objects : list Object) :
  List.length objects = 2%nat →
  ∃ b0 b1, compute_forces objects = Some [b0; b1]
    ∧ force b1 = glm.neg (force b0)
    ∧ force b0 = glm.neg (force b1)
    ∧ (is_nan (glm.x (force b0)) = false → is_nan (glm.y (force b0)) = false →
       glm.equal (force b0) (glm.neg (force b1)) = true).
Proof.
  intros Hlen. destruct objects as [|o0 [|o1 [|]]]; try discriminate Hlen.
  eexists _, _. split; [apply compute_forces_two |]. cbn [force set_force].
  split; [done |]. rewrite neg_involutive. split; [done |].
  unfold glm.equal, is_nan. intros Hx Hy.
  apply negb_false_iff in Hx, Hy. by rewrite Hx, Hy.
Qed.

Lemma newton_third_law_exact_witness :
  ∃ b0 b1, compute_forces initial_objects = Some [b0; b1]
    ∧ force b1 = glm.neg (force b0)
    ∧ force b0 = glm.neg (force b1).
Proof.
  destruct (newton_third_law_exact initial_objects) as (b0 & b1 & H0 & H1 & H2 & _).
  - reflexivity.
  - exists b0, b1. split; [exact H0 |]. split; [exact H1 | exact H2].
Defined.

(** C4, as stated, fails: with both bodies at the origin the step reports no
    error; it returns a state that differs from the one it started from
    (the velocities, defined before, are NaN afterwards), and the run goes
    on to write all its rows. *)
Lemma coincident_step_mutates_and_run_continues :
  position <$> coincident_objects = [zero_vec; zero_vec]
  ∧ velocities_defined coincident_objects = true
  ∧ ∃ objects' rows final,
      step METHOD_SYMPLECTIC coincident_objects = Some objects'
      ∧ objects' ≠ coincident_objects
      ∧ velocities_defined objects' = false
      ∧ simulate METHOD_SYMPLECTIC (Z.to_nat number_steps) 0 coincident_objects
        = Some (rows, final)
      ∧ Z.of_nat (List.length rows) = number_steps.
Proof.
  split; [reflexivity |]. split; [reflexivity |].
  assert (Hm : valid_method METHOD_SYMPLECTIC) by (right; reflexivity).
  destruct (simulate_spec METHOD_SYMPLECTIC (Z.to_nat number_steps) 0
              coincident_objects Hm) as (rows & final & Hsim & Hlen & _);
    [simpl; lia |].
  eexists _, rows, final. split; [vm_compute; reflexivity |].
  split.
  { intros H. apply (f_equal velocities_defined) in H. vm_compute in H.
    discriminate H. }
  split; [vm_compute; reflexivity |]. split; [exact Hsim |].
  rewrite Hlen. apply Z2Nat.id. discriminate.
Qed.

(** C4, amended: when the two bodies have identical positions, no error is
    raised.  The gravity phase assigns NaN to both forces, the integration
    overwrites both velocities with NaN and, under the symplectic method,
    both positions with NaN (under the naive method the positions advance by
    the old velocities); the step completes, and a run started from such
    bodies writes a row for every one of its steps. *)
Theorem coincident_bodies_propagate_nan method (a b : Object) :
  valid_method method → position a = position b →
  ∃ a' b',
    step method [a; b] = Some [a'; b']
    ∧ force a' = nan_vec ∧ force b' = nan_vec
    ∧ velocity a' = nan_vec ∧ velocity b' = nan_vec
    ∧ (method = METHOD_SYMPLECTIC →
         position a' = nan_vec ∧ position b' = nan_vec)
    ∧ (method = METHOD_NAIVE →
         position a' = glm.add (position a) (glm.scale (velocity a) delta_time)
         ∧ position b' = glm.add (position b) (glm.scale (velocity b) delta_time))
    ∧ ∀ fuel step_index, ∃ rows final,
        simulate method fuel step_index [a; b] = Some (rows, final)
        ∧ List.length rows = fuel.
Proof.
  intros Hm Hpos.
  assert (Hv : ∀ o, new_velocity_of (set_force o nan_vec) = nan_vec)
    by (intros o; by apply new_velocity_nan).
  assert (Hp : ∀ p, glm.add p (glm.scale nan_vec delta_time) = nan_vec).
  { intros p. unfold glm.add, glm.scale, nan_vec. cbn [glm.x glm.y].
    by rewrite mul_nan_l, !add_nan_r. }
  assert (Hrun : ∀ fuel step_index, ∃ rows final,
             simulate method fuel step_index [a; b] = Some (rows, final)
             ∧ List.length rows = fuel).
  { intros fuel step_index.
    destruct (simulate_spec method fuel step_index [a; b] Hm)
      as (rows & final & Hsim & Hlen & _); [simpl; lia | eauto]. }
  unfold step. rewrite compute_forces_two, pair_force_coincident by done.
  change (glm.neg nan_vec) with nan_vec.
  cbn [mbind option_bind]. rewrite integrate_all_two.
  unfold integrate_object, new_position_of. rewrite !Hv.
  destruct Hm as [-> | ->];
    [rewrite select_branch_naive | rewrite select_branch_symplectic];
    cbn [mbind option_bind]; eexists _, _; (split; [reflexivity |]);
    cbn [force velocity position set_force]; rewrite ?Hp;
    do 4 (split; [reflexivity |]);
    (split; [intros Heq; first [discriminate Heq | by split] |]);
    (split; [intros Heq; first [discriminate Heq | by split] | exact Hrun]).
Qed.

Lemma coincident_bodies_propagate_nan_witness :
  ∃ a' b',
    step METHOD_NAIVE coincident_objects = Some [a'; b']
    ∧ velocity a' = nan_vec ∧ velocity b' = nan_vec.
Proof.
  destruct (coincident_bodies_propagate_nan METHOD_NAIVE
              (mkObject "Earth" 5.9722e24 (glm.Vec2 0.0 0.0) (glm.Vec2 0.0 (-12.5)) zero_vec)
              (mkObject "Moon" 7.342e22 (glm.Vec2 0.0 0.0) (glm.Vec2 0.0 1022.0) zero_vec))
    as (a' & b' & Hstep & _ & _ & Hva & Hvb & _).
  - left; reflexivity.
  - reflexivity.
  - exists a', b'. split; [exact Hstep |]. split; [exact Hva | exact Hvb].
Defined.

(** C5: when the method selector (the first argument) is missing or is
    neither "naive" nor "symplectic", the program exits with status 1, which
    is not zero, and writes no row to standard output. *)
Theorem invalid_selector_exits_without_output (argv : list string) :
  (∀ method, argv !! 1%nat = Some method → ¬ valid_method method) →
  ∃ out, main argv = Some out
    ∧ exit_status out = 1 ∧ exit_status out ≠ 0 ∧ stdout out = [].
Proof.
  intros Hsel.
  destruct (main_usage_error argv Hsel) as [-> | ->]; eexists; done.
Qed.

Lemma invalid_selector_exits_without_output_witness :
  (∃ out, main ["Integration"] = Some out
     ∧ exit_status out = 1 ∧ exit_status out ≠ 0 ∧ stdout out = [])
  ∧ (∃ out, main ["Integration"; "rk4"] = Some out
     ∧ exit_status out = 1 ∧ exit_status out ≠ 0 ∧ stdout out = []).
Proof.
  split.
  - apply (invalid_selector_exits_without_output ["Integration"]).
    intros method Hmethod. discriminate Hmethod.
  - apply (invalid_selector_exits_without_output ["Integration"; "rk4"]).
    intros method Hmethod. injection Hmethod as <-.
    intros [H | H]; discriminate H.
Defined.

(** C6, as stated, fails: in the symplectic run the rows of steps 361 and
    362 carry different distances, 400020280.04... and 400020137.34..., and
    both are printed as 4.0002e+08, so no reading of the printed text gives
    back the two computed doubles. *)
Lemma printed_distances_collide :
  ∃ r1 r2,
    row_of_run METHOD_SYMPLECTIC 361 = Some r1
    ∧ row_of_run METHOD_SYMPLECTIC 362 = Some r2
    ∧ distance r1 = 400020280.04363179%float
    ∧ distance r2 = 400020137.34496289%float
    ∧ distance r1 ≠ distance r2
    ∧ format_double (distance r1) = "4.0002e+08"
    ∧ format_double (distance r2) = "4.0002e+08"
    ∧ ¬ ∃ parse : string → float,
          parse (format_double (distance r1)) = distance r1
          ∧ parse (format_double (distance r2)) = distance r2.
Proof.
  eexists _, _. split; [vm_compute; reflexivity |].
  split; [vm_compute; reflexivity |]. cbn [distance].
  split; [reflexivity |]. split; [reflexivity |].
  assert (Hne : 400020280.04363179%float ≠ 400020137.34496289%float).
  { intros H. apply FloatAxioms.Leibniz.eqb_spec in H. vm_compute in H.
    discriminate H. }
  assert (H1 : format_double 400020280.04363179 = "4.0002e+08")
    by (vm_compute; reflexivity).
  assert (H2 : format_double 400020137.34496289 = "4.0002e+08")
    by (vm_compute; reflexivity).
  split; [exact Hne |]. split; [exact H1 |]. split; [exact H2 |].
  intros (parse & Hp1 & Hp2). rewrite H1 in Hp1. rewrite H2 in Hp2.
  apply Hne. by rewrite <- Hp1, <- Hp2.
Qed.

(** C6, amended: every line written is built from the six fields of its row,
    each printed by the stream's default conversion, which keeps 6
    significant decimal digits: a finite non-zero value is rounded, to
    nearest and ties to even, to six digits at its own decimal exponent and
    laid out in the general (%g) style, so a value that needs more digits
    is not written in full and the text does not identify the double.  All
    fields of the reference runs are finite, and the conditions fix the text
    of each field. *)
Theorem rows_printed_to_six_digits prog method :
  valid_method method →
  ∃ out rows final,
    main [prog; method] = Some out
    ∧ simulate method (Z.to_nat number_steps) 0 initial_objects = Some (rows, final)
    ∧ default_precision = 6
    ∧ (∀ k r, rows !! k = Some r →
         forallb is_finite (fields r) = true
         ∧ ∃ t0 t1 t2 t3 t4 t5,
             stdout out !! k =
               Some (t0 ++ tab ++ t1 ++ tab ++ t2 ++ tab ++ t3 ++ tab
                     ++ t4 ++ tab ++ t5 ++ endl)%string
             ∧ printed_to_precision 6 (elapsed_seconds r) t0
             ∧ printed_to_precision 6 (body0_x r) t1
             ∧ printed_to_precision 6 (body0_y r) t2
             ∧ printed_to_precision 6 (body1_x r) t3
             ∧ printed_to_precision 6 (body1_y r) t4
             ∧ printed_to_precision 6 (distance r) t5)
    ∧ (∀ v t t',
         printed_to_precision 6 v t → printed_to_precision 6 v t' → t = t').
Proof.
  intros Hm.
  destruct (main_valid prog method Hm) as (rows & final & Hsim & Hmain).
  eexists _, rows, final. split; [exact Hmain |]. split; [exact Hsim |].
  split; [reflexivity |]. split; [|apply printed_to_precision_unique].
  intros k r Hr. split.
  { apply (reference_fields_finite method rows final Hm Hsim).
    by apply (list_elem_of_lookup_2 _ k). }
  exists (format_double (elapsed_seconds r)), (format_double (body0_x r)),
         (format_double (body0_y r)), (format_double (body1_x r)),
         (format_double (body1_y r)), (format_double (distance r)).
  split.
  { cbn [stdout]. rewrite list_lookup_fmap, Hr. reflexivity. }
  repeat split; apply format_double_precision.
Qed.

Lemma rows_printed_to_six_digits_witness :
  valid_method METHOD_SYMPLECTIC
  ∧ ∃ out rows final,
      main ["Integration"; METHOD_SYMPLECTIC] = Some out
      ∧ simulate METHOD_SYMPLECTIC (Z.to_nat number_steps) 0 initial_objects
        = Some (rows, final)
      ∧ ∀ k r, rows !! k = Some r → forallb is_finite (fields r) = true.
Proof.
  assert (Hm : valid_method METHOD_SYMPLECTIC) by (right; reflexivity).
  split; [exact Hm |].
  destruct (rows_printed_to_six_digits "Integration" METHOD_SYMPLECTIC Hm)
    as (out & rows & final & Hmain & Hsim & _ & Hrows & _).
  exists out, rows, final. split; [exact Hmain |]. split; [exact Hsim |].
  intros k r Hr. exact (proj1 (Hrows k r Hr)).
Defined.

(** C7: two runs with the same method produce identical output, whatever the
    two runs find in uninitialised storage and whatever name the program is
    started under: for any bodies, any number of steps and any starting
    step index, the rows written and the final bodies are the same in both
    runs, and so is the whole outcome of the program (exit status, lines
    written, messages). *)
Theorem runs_are_deterministic method (objects : list Object) steps first_step
    (memory1 memory2 : Z → nat → glm.vec2) :
  valid_method method →
  simulate_in memory1 method steps first_step objects
  = simulate_in memory2 method steps first_step objects
  ∧ (∀ prog1 prog2,
       main_in memory1 [prog1; method] = main_in memory2 [prog2; method]
       ∧ (stdout <$> main_in memory1 [prog1; method])
         = (stdout <$> main_in memory2 [prog2; method])).
Proof.
  intros Hm. split.
  - by rewrite !simulate_in_valid.
  - intros prog1 prog2.
    assert (H : main_in memory1 [prog1; method] = main_in memory2 [prog2; method]).
    { rewrite !main_in_main, !main_two_arguments. reflexivity. }
    rewrite H. split; reflexivity.
Qed.

Lemma runs_are_deterministic_witness :
  simulate_in (λ _ _, glm.Vec2 0 0) METHOD_NAIVE 3 0 initial_objects
  = simulate_in (λ _ _, glm.Vec2 1 1) METHOD_NAIVE 3 0 initial_objects.
Proof.
  apply (runs_are_deterministic METHOD_NAIVE initial_objects 3 0
           (λ _ _, glm.Vec2 0 0) (λ _ _, glm.Vec2 1 1)).
  left; reflexivity.
Defined.

(** C8: the gravity phase of a step completes before the integration phase
    starts and leaves every position and velocity as it was before the step.
    With two bodies or more it assigns every force, and each force is the
    attraction computed from the pre-step state of two bodies (that of the
    body and of the last body; for the last body, negated, that of the body
    before it); with fewer bodies there is no pair and nothing is assigned.
    Given those forces, integrating the bodies in any order gives the result
    of the step. *)
Theorem forces_from_snapshot_then_any_order method (objects : list Object) order :
  order ≡ₚ seq 0 (List.length objects) →
  ∃ objects1,
    compute_forces objects = Some objects1
    ∧ position <$> objects1 = position <$> objects
    ∧ velocity <$> objects1 = velocity <$> objects
    ∧ ((List.length objects < 2)%nat → objects1 = objects)
    ∧ (∀ olast, (2 ≤ List.length objects)%nat →
         objects !! (List.length objects - 1)%nat = Some olast →
         (∀ k ok, (k < List.length objects - 1)%nat → objects !! k = Some ok →
            ∃ o1, objects1 !! k = Some o1 ∧ force o1 = pair_force ok olast)
         ∧ (∀ oprev, objects !! (List.length objects - 2)%nat = Some oprev →
              ∃ o1, objects1 !! (List.length objects - 1)%nat = Some o1
                ∧ force o1 = glm.neg (pair_force oprev olast)))
    ∧ integrate_in_order method order objects1 = step method objects.
Proof.
  intros Hperm.
  destruct (compute_forces_kinematics objects) as (objects1 & Hf & Hk).
  exists objects1. split; [done |].
  assert (Hproj : ∀ (B : Type) (f : Object → B) (g : string * float * glm.vec2 * glm.vec2 → B),
             (∀ o, f o = g (kinematics o)) → f <$> objects1 = f <$> objects).
  { intros B f g Hfg.
    rewrite (list_fmap_ext f (g ∘ kinematics) objects1) by (intros; apply Hfg).
    rewrite (list_fmap_ext f (g ∘ kinematics) objects) by (intros; apply Hfg).
    by rewrite !list_fmap_compose, Hk. }
  split; [apply (Hproj _ position (λ t, t.1.2)); done |].
  split; [apply (Hproj _ velocity (λ t, t.2)); done |].
  split.
  { intros Hsmall. destruct objects as [|o0 [|o1 rest]]; simpl in Hsmall; try lia;
      cbv in Hf; by injection Hf as <-. }
  split.
  { intros olast Hn Hlast.
    destruct (compute_forces_last_pair objects olast Hn Hlast)
      as (t & Ht & _ & Hbody & Hend).
    rewrite Hf in Ht. injection Ht as <-. done. }
  unfold step. rewrite Hf. simpl. unfold integrate_all.
  apply integrate_in_order_permutation.
  by rewrite (kinematics_length _ _ Hk).
Qed.

Lemma forces_from_snapshot_then_any_order_witness :
  ∃ objects1 earth moon,
    compute_forces initial_objects = Some objects1
    ∧ initial_objects = [earth; moon]
    ∧ force <$> objects1
      = [pair_force earth moon; glm.neg (pair_force earth moon)]
    ∧ integrate_in_order METHOD_NAIVE [1; 0]%nat objects1
      = step METHOD_NAIVE initial_objects.
Proof.
  destruct (forces_from_snapshot_then_any_order METHOD_NAIVE initial_objects
              [1; 0]%nat) as (objects1 & Hf & _ & _ & _ & _ & Horder).
  - simpl. apply perm_swap.
  - exists objects1. eexists _, _. split; [exact Hf |]. split; [reflexivity |].
    split; [|exact Horder].
    unfold initial_objects in Hf. rewrite compute_forces_two in Hf.
    injection Hf as <-. reflexivity.
Defined.

(** C9: from the reference initial conditions and after 8760 steps, the
    distance in the last row of the symplectic run lies within 5% of the
    initial 384,405,000 m (between 365,184,750 and 403,625,250), and the
    distance in the last row of the naive run exceeds the initial distance
    by more than 20% (it is above 461,286,000). *)
Theorem symplectic_bounded_naive_diverges :
  ∃ d_symplectic d_naive,
    initial_distance = Some 384405000%float
    ∧ number_steps = 8760
    ∧ final_distance METHOD_SYMPLECTIC = Some d_symplectic
    ∧ final_distance METHOD_NAIVE = Some d_naive
    ∧ (365184750 <=? d_symplectic)%float = true
    ∧ (d_symplectic <=? 403625250)%float = true
    ∧ (461286000 <? d_naive)%float = true.
Proof.
  eexists _, _. split; [vm_compute; reflexivity |]. split; [reflexivity |].
  split; [vm_compute; reflexivity |]. split; [vm_compute; reflexivity |].
  repeat split; vm_compute; reflexivity.
Qed.

(** C10: when the method is "naive" or "symplectic", which the validation
    before the loop guarantees, exactly one of the two branches assigning
    [new_position] is taken for every body, so the value stored in the body
    has been assigned; the path on which it is left unassigned is not
    taken, and the whole run from [main] meets no unassigned value. *)
Theorem new_position_always_assigned method :
  valid_method method →
  (select_branch method = TakenNaive ∧ method = METHOD_NAIVE
   ∨ select_branch method = TakenSymplectic ∧ method = METHOD_SYMPLECTIC)
  ∧ select_branch method ≠ FallThrough
  ∧ (∀ o old_velocity new_velocity,
       is_Some (new_position_of method o old_velocity new_velocity))
  ∧ (∀ objects, is_Some (step method objects))
  ∧ (∀ prog, ∃ out, main [prog; method] = Some out ∧ exit_status out = 0).
Proof.
  intros Hm.
  assert (Hbranch : select_branch method = TakenNaive ∧ method = METHOD_NAIVE
            ∨ select_branch method = TakenSymplectic ∧ method = METHOD_SYMPLECTIC)
    by (destruct Hm as [-> | ->]; [left | right]; done).
  split; [done |]. split.
  { destruct Hbranch as [[-> _] | [-> _]]; discriminate. }
  split.
  { intros o ov nv. unfold new_position_of.
    destruct Hbranch as [[-> _] | [-> _]]; eauto. }
  split.
  { intros objects.
    destruct (step_spec method objects Hm) as (_ & objects' & _ & _ & -> & _).
    eauto. }
  intros prog. destruct (main_valid prog method Hm) as (rows & _ & _ & ->).
  eauto.
Qed.

Lemma new_position_always_assigned_witness :
  valid_method METHOD_NAIVE ∧ select_branch METHOD_NAIVE ≠ FallThrough.
Proof.
  assert (Hm : valid_method METHOD_NAIVE) by (left; reflexivity).
  split; [exact Hm |].
  exact (proj1 (proj2 (new_position_always_assigned METHOD_NAIVE Hm))).
Defined.

(** * Further properties of the program *)

(** ** What a step keeps *)

Lemma integrate_object_fields method o o' :
  integrate_object method o = Some o' →
  name o' = name o ∧ mass o' = mass o ∧ force o' = force o
  ∧ velocity o' = new_velocity_of o.
Proof.
  unfold integrate_object. intros H.
  destruct (new_position_of method o (velocity o) (new_velocity_of o));
    [|discriminate H].
  injection H as <-. done.
Qed.

Lemma fmap_eq_by_lookup {A B : Type} (f : A → B) (l1 l2 : list A) :
  List.length l1 = List.length l2 →
  (∀ i a b, l1 !! i = Some a → l2 !! i = Some b → f a = f b) →
  f <$> l1 = f <$> l2.
Proof.
  intros Hlen Hf. apply list_eq. intros i. rewrite !list_lookup_fmap.
  destruct (l1 !! i) as [a|] eqn:Ha, (l2 !! i) as [b|] eqn:Hb; simpl.
  - f_equal. by apply (Hf i).
  - apply lookup_lt_Some in Ha. apply lookup_ge_None in Hb. lia.
  - apply lookup_ge_None in Ha. apply lookup_lt_Some in Hb. lia.
  - reflexivity.
Qed.

(* One step, body by body: the body after the step is the integration of the
   body as the gravity phase left it, which has the kinematics it had
   before the step. *)
Lemma step_lookup method (objects objects' : list Object) i o' :
  valid_method method → step method objects = Some objects' →
  objects' !! i = Some o' →
  ∃ old o1, objects !! i = Some old ∧ kinematics o1 = kinematics old
    ∧ integrate_object method o1 = Some o'.
Proof.
  intros Hm Hstep Ho'.
  destruct (step_spec method objects Hm)
    as (objects1 & objects2 & Hf & Hk & Hstep2 & Hlen & Hint).
  rewrite Hstep in Hstep2. injection Hstep2 as <-.
  assert (Hi : (i < List.length objects1)%nat).
  { rewrite (kinematics_length _ _ Hk), <- Hlen. eauto using lookup_lt_Some. }
  destruct (lookup_lt_is_Some_2 objects1 i Hi) as [o1 Ho1].
  destruct (kinematics_lookup_inv objects objects1 i o1 Hk Ho1) as (old & Hold & Hkin).
  destruct (Hint i o1 Ho1) as (o2 & Hint2 & Ho2).
  exists old, o1. repeat split; try done. congruence.
Qed.

Lemma state_after_total method k (objects : list Object) :
  valid_method method →
  ∃ objects', state_after method k objects = Some objects'
    ∧ List.length objects' = List.length objects.
Proof.
  intros Hm. revert objects. induction k as [|k IH]; intros objects; simpl.
  - eauto.
  - destruct (step_spec method objects Hm) as (_ & objects1 & _ & _ & -> & Hlen & _).
    simpl. destruct (IH objects1) as (objects' & -> & Hlen').
    exists objects'. split; [done | lia].
Qed.

(** X1: over any number of steps, the bodies keep their number, their order,
    their names and their masses: a step only writes force, velocity and
    position. *)
Theorem run_keeps_names_and_masses method k (objects : list Object) :
  valid_method method →
  ∃ objects', state_after method k objects = Some objects'
    ∧ List.length objects' = List.length objects
    ∧ name <$> objects' = name <$> objects
    ∧ mass <$> objects' = mass <$> objects.
Proof.
  intros Hm. revert objects. induction k as [|k IH]; intros objects; simpl.
  - eauto.
  - destruct (step_spec method objects Hm)
      as (_ & objects1 & _ & _ & Hstep & Hlen & _).
    rewrite Hstep. simpl.
    destruct (IH objects1) as (objects' & -> & Hlen' & Hname & Hmass).
    exists objects'. split; [done |]. split; [lia |].
    rewrite Hname, Hmass.
    split; apply fmap_eq_by_lookup; try done; intros i a b Ha Hb;
      destruct (step_lookup method objects objects1 i a Hm Hstep Ha)
        as (old & o1 & Hold & Hkin & Hint);
      apply integrate_object_fields in Hint as (Hn & Hma & _);
      unfold kinematics in Hkin; injection Hkin as Hn1 Hm1 _ _; congruence.
Qed.

Lemma run_keeps_names_and_masses_witness :
  ∃ objects', state_after METHOD_NAIVE 3 initial_objects = Some objects'
    ∧ name <$> objects' = ["Earth"; "Moon"].
Proof.
  destruct (run_keeps_names_and_masses METHOD_NAIVE 3 initial_objects)
    as (objects' & Hrun & _ & Hname & _).
  - left; reflexivity.
  - exists objects'. split; [exact Hrun | exact Hname].
Defined.

(** X2: from the same bodies, a naive step and a symplectic step end with
    the same forces and the same velocities for every body; the two methods
    differ in the positions only. *)
Theorem methods_differ_in_position_only (objects : list Object) :
  ∃ after_naive after_symplectic,
    step METHOD_NAIVE objects = Some after_naive
    ∧ step METHOD_SYMPLECTIC objects = Some after_symplectic
    ∧ List.length after_naive = List.length after_symplectic
    ∧ force <$> after_naive = force <$> after_symplectic
    ∧ velocity <$> after_naive = velocity <$> after_symplectic.
Proof.
  assert (Hn : valid_method METHOD_NAIVE) by (left; reflexivity).
  assert (Hs : valid_method METHOD_SYMPLECTIC) by (right; reflexivity).
  destruct (step_spec METHOD_NAIVE objects Hn)
    as (objects1 & after_naive & Hf & _ & Hstepn & Hlenn & Hintn).
  destruct (step_spec METHOD_SYMPLECTIC objects Hs)
    as (objects1' & after_symplectic & Hf' & _ & Hsteps & Hlens & Hints).
  rewrite Hf in Hf'. injection Hf' as <-.
  exists after_naive, after_symplectic.
  do 2 (split; [done |]). assert (Hlen : List.length after_naive
                                       = List.length after_symplectic) by lia.
  split; [done |].
  assert (Hpair : ∀ i a b, after_naive !! i = Some a →
            after_symplectic !! i = Some b →
            force a = force b ∧ velocity a = velocity b).
  { intros i a b Ha Hb.
    assert (Hi : (i < List.length objects1)%nat).
    { destruct (compute_forces_kinematics objects) as (t & Ht & Hk).
      rewrite Hf in Ht. injection Ht as <-.
      rewrite (kinematics_length _ _ Hk), <- Hlenn. eauto using lookup_lt_Some. }
    destruct (lookup_lt_is_Some_2 objects1 i Hi) as [o1 Ho1].
    destruct (Hintn i o1 Ho1) as (a' & Hia & Ha').
    destruct (Hints i o1 Ho1) as (b' & Hib & Hb').
    replace a' with a in Hia by congruence.
    replace b' with b in Hib by congruence.
    apply integrate_object_fields in Hia as (_ & _ & Hfa & Hva).
    apply integrate_object_fields in Hib as (_ & _ & Hfb & Hvb).
    split; congruence. }
  split; apply fmap_eq_by_lookup; try done; intros i a b Ha Hb;
    by destruct (Hpair i a b Ha Hb).
Qed.

(** ** The command line *)

(** X3: the program exits with status 0 exactly when it is given one
    argument and that argument is "naive" or "symplectic"; it then writes
    8760 rows and no message.  Otherwise it exits with status 1, writes no
    row and one message: the first usage message when the number of
    arguments is not one (also when there are more, whatever the first one
    is), the second when the single argument is not a method. *)
Theorem main_outcomes (argv : list string) :
  ∃ out, main argv = Some out
    ∧ (exit_status out = 0 ∨ exit_status out = 1)
    ∧ (exit_status out = 0 ↔
         List.length argv = 2%nat
         ∧ ∃ method, argv !! 1%nat = Some method ∧ valid_method method)
    ∧ (exit_status out = 0 →
         stderr out = [] ∧ Z.of_nat (List.length (stdout out)) = 8760)
    ∧ (exit_status out = 1 →
         stdout out = []
         ∧ (List.length argv ≠ 2%nat → stderr out = [usage_missing])
         ∧ (List.length argv = 2%nat → stderr out = [usage_invalid])).
Proof.
  destruct (decide (List.length argv = 2%nat)) as [Hargc | Hargc].
  - destruct argv as [|prog [|method [|]]]; try discriminate Hargc.
    destruct (decide (valid_method method)) as [Hm | Hm].
    + destruct (main_valid prog method Hm) as (rows & final & Hsim & Hmain).
      destruct (simulate_spec method (Z.to_nat number_steps) 0 initial_objects Hm)
        as (rows' & final' & Hsim' & Hlen & _); [simpl; lia |].
      rewrite Hsim in Hsim'. injection Hsim' as <- <-.
      eexists. split; [exact Hmain |]. cbn [exit_status stdout stderr].
      split; [by left |]. split; [split; [eauto | done] |].
      split; [|discriminate]. intros _. split; [done |].
      rewrite length_fmap, Hlen. apply Z2Nat.id. discriminate.
    + rewrite main_two_arguments.
      destruct (String.eqb_spec method METHOD_NAIVE) as [-> | _];
        [destruct Hm; by left |].
      destruct (String.eqb_spec method METHOD_SYMPLECTIC) as [-> | _];
        [destruct Hm; by right |].
      eexists. split; [reflexivity |]. cbn [exit_status stdout stderr negb andb].
      split; [by right |]. split.
      { split; [discriminate |]. intros (_ & m & Hsel & Hvalid).
        injection Hsel as <-. contradiction. }
      split; [discriminate |]. intros _. done.
  - assert (Hmain : main argv = Some (mkOutcome 1 [] [usage_missing])).
    { unfold main.
      destruct (Z.of_nat (List.length argv) =? 2) eqn:Heq; [|reflexivity].
      apply Z.eqb_eq in Heq. lia. }
    eexists. split; [exact Hmain |]. cbn [exit_status stdout stderr].
    split; [by right |]. split.
    { split; [discriminate |]. intros (Hlen & _). contradiction. }
    split; [discriminate |]. intros _. done.
Qed.

(** ** Splitting a run *)

(** X4: a run of [n + m] steps is a run of [n] steps followed by a run of
    [m] steps that starts from the bodies the first one ended with and
    counts its steps from where the first one stopped; the rows of the
    first part do not depend on how long the whole run is. *)
Theorem simulate_splits method n m step_index (objects : list Object) :
  simulate method (n + m) step_index objects =
    first_part ← simulate method n step_index objects;
    second_part ← simulate method m (step_index + Z.of_nat n) first_part.2;
    Some (first_part.1 ++ second_part.1, second_part.2).
Proof.
  revert step_index objects.
  induction n as [|n IH]; intros step_index objects.
  - cbn [Nat.add simulate mbind option_bind fst snd app].
    rewrite Z.add_0_r.
    by destruct (simulate method m step_index objects) as [[rows final]|].
  - cbn [Nat.add simulate].
    destruct (step method objects) as [objects'|]; [|done].
    cbn [mbind option_bind].
    destruct (emit step_index objects') as [row|]; [|done].
    cbn [mbind option_bind]. rewrite IH.
    replace (step_index + 1 + Z.of_nat n) with (step_index + Z.of_nat (S n)) by lia.
    destruct (simulate method n (step_index + 1) objects') as [[rows1 mid]|];
      [|done].
    cbn [mbind option_bind fst snd].
    by destruct (simulate method m (step_index + Z.of_nat (S n)) mid)
      as [[rows2 final]|].
Qed.

(** X5: with two bodies or more, the gravity phase leaves every body but
    the last with the attraction towards the last body alone, and the last
    body with the negated attraction of the body before it: each assignment
    overwrites the force, so the contributions of the other pairs are not
    added up. *)
Theorem gravity_keeps_last_pair_only (objects : list Object) olast :
  (2 ≤ List.length objects)%nat →
  objects !! (List.length objects - 1)%nat = Some olast →
  ∃ objects',
    compute_forces objects = Some objects'
    ∧ kinematics <$> objects' = kinematics <$> objects
    ∧ (∀ k ok, (k < List.length objects - 1)%nat → objects !! k = Some ok →
         ∃ o', objects' !! k = Some o' ∧ force o' = pair_force ok olast)
    ∧ (∀ oprev, objects !! (List.length objects - 2)%nat = Some oprev →
         ∃ o', objects' !! (List.length objects - 1)%nat = Some o'
           ∧ force o' = glm.neg (pair_force oprev olast)).
Proof. intros Hn Hlast. by apply compute_forces_last_pair. Qed.

Lemma gravity_keeps_last_pair_only_witness :
  ∃ objects',
    compute_forces (initial_objects ++ initial_objects) = Some objects'
    ∧ List.length objects' = 4%nat.
Proof.
  destruct (gravity_keeps_last_pair_only (initial_objects ++ initial_objects)
              (mkObject "Moon" 7.342e22 (glm.Vec2 384405000.0 0.0)
                 (glm.Vec2 0.0 1022.0) zero_vec))
    as (objects' & Hrun & Hk & _).
  - simpl. lia.
  - reflexivity.
  - exists objects'. split; [exact Hrun |].
    apply (kinematics_length _ _ Hk).
Defined.

Lemma object_eq (a b : Object) :
  kinematics a = kinematics b → force a = force b → a = b.
Proof.
  destruct a, b. unfold kinematics. simpl. intros Hk Hf.
  injection Hk as -> -> -> ->. by rewrite Hf.
Qed.

Lemma kinematics_at (objects t : list Object) i o o' :
  kinematics <$> t = kinematics <$> objects →
  objects !! i = Some o → t !! i = Some o' → kinematics o' = kinematics o.
Proof.
  intros Hk Ho Ho'.
  destruct (kinematics_lookup_inv objects t i o' Hk Ho') as (o2 & Ho2 & Hkin).
  congruence.
Qed.

(** X6: with two bodies or more, the forces stored in the bodies when a step
    starts have no influence on it: two lists of bodies that agree on names,
    masses, positions and velocities leave the gravity phase, and the whole
    step, in the same state.  The force is recomputed in full in every
    step. *)
Theorem step_ignores_incoming_forces method (objects objects2 : list Object) :
  (2 ≤ List.length objects)%nat →
  kinematics <$> objects = kinematics <$> objects2 →
  compute_forces objects = compute_forces objects2
  ∧ step method objects = step method objects2.
Proof.
  intros Hn Hsame.
  assert (Hlen2 := kinematics_length _ _ Hsame).
  set (n := List.length objects) in *.
  destruct (lookup_lt_is_Some_2 objects (n - 1)) as [olast Hlast]; [lia |].
  destruct (lookup_lt_is_Some_2 objects2 (n - 1)) as [olast2 Hlast2]; [lia |].
  destruct (lookup_lt_is_Some_2 objects (n - 2)) as [oprev Hprev]; [lia |].
  destruct (lookup_lt_is_Some_2 objects2 (n - 2)) as [oprev2 Hprev2]; [lia |].
  destruct (compute_forces_last_pair objects olast Hn Hlast)
    as (t & Ht & Hk & Hbody & Hend).
  destruct (compute_forces_last_pair objects2 olast2)
    as (t2 & Ht2 & Hk2 & Hbody2 & Hend2); [lia | by rewrite <- Hlen2 |].
  rewrite <- Hlen2 in Hbody2, Hend2. fold n in Hbody, Hend, Hbody2, Hend2.
  assert (Hkl : kinematics olast = kinematics olast2)
    by (eapply (kinematics_at objects2 objects); eauto).
  assert (Heq : t = t2).
  { apply list_eq. intros i.
    assert (Hlt : List.length t = n) by (by rewrite (kinematics_length _ _ Hk)).
    assert (Hlt2 : List.length t2 = n)
      by (rewrite (kinematics_length _ _ Hk2); lia).
    destruct (decide (i < n)%nat) as [Hi | Hi].
    - destruct (lookup_lt_is_Some_2 objects i) as [ok Hok]; [done |].
      destruct (lookup_lt_is_Some_2 objects2 i) as [ok2 Hok2]; [lia |].
      assert (Hkk : kinematics ok = kinematics ok2)
        by (eapply (kinematics_at objects2 objects); eauto).
      assert (Hforce : ∃ o' o2', t !! i = Some o' ∧ t2 !! i = Some o2'
                ∧ force o' = force o2') .
      { destruct (decide (i = (n - 1)%nat)) as [-> | Hne].
        - destruct (Hend oprev Hprev) as (o' & Ho' & Hf).
          destruct (Hend2 oprev2 Hprev2) as (o2' & Ho2' & Hf2).
          exists o', o2'. split; [done |]. split; [done |].
          rewrite Hf, Hf2. f_equal. apply pair_force_kinematics; [|done].
          eapply (kinematics_at objects2 objects); eauto.
        - destruct (Hbody i ok) as (o' & Ho' & Hf); [lia | done |].
          destruct (Hbody2 i ok2) as (o2' & Ho2' & Hf2); [lia | done |].
          exists o', o2'. split; [done |]. split; [done |].
          rewrite Hf, Hf2. by apply pair_force_kinematics. }
      destruct Hforce as (o' & o2' & Ho' & Ho2' & Hf).
      rewrite Ho', Ho2'. f_equal. apply object_eq; [|done].
      rewrite (kinematics_at objects t i ok o' Hk Hok Ho').
      by rewrite (kinematics_at objects2 t2 i ok2 o2' Hk2 Hok2 Ho2').
    - rewrite (lookup_ge_None_2 t i), (lookup_ge_None_2 t2 i) by lia. done. }
  assert (Hforces : compute_forces objects = compute_forces objects2)
    by (by rewrite Ht, Ht2, Heq).
  split; [done |]. unfold step. by rewrite Hforces.
Qed.

Lemma step_ignores_incoming_forces_witness :
  step METHOD_SYMPLECTIC ((λ o, set_force o nan_vec) <$> initial_objects)
  = step METHOD_SYMPLECTIC initial_objects.
Proof.
  apply (step_ignores_incoming_forces METHOD_SYMPLECTIC
           ((λ o, set_force o nan_vec) <$> initial_objects) initial_objects).
  - simpl. lia.
  - reflexivity.
Defined.

(** ** NaN is never cleared *)

Lemma add_nan_l (a : float) : (nan + a)%float = nan.
Proof.
  apply Prim2SF_inj. rewrite FloatAxioms.add_spec.
  change (Prim2SF nan) with S754_nan. by destruct (Prim2SF a).
Qed.

Lemma integrate_object_nan method o o' :
  integrate_object method o = Some o' →
  (glm.x (velocity o) = nan →
     glm.x (velocity o') = nan ∧ glm.x (position o') = nan)
  ∧ (glm.y (velocity o) = nan →
     glm.y (velocity o') = nan ∧ glm.y (position o') = nan).
Proof.
  unfold integrate_object, new_position_of, new_velocity_of.
  destruct (select_branch method); cbn [mbind option_bind]; intros H;
    try discriminate H; injection H as <-;
    cbn [velocity position glm.add glm.scale glm.x glm.y];
    split; intros ->; by rewrite ?add_nan_l, ?mul_nan_l, ?add_nan_r.
Qed.

Lemma step_keeps_nan method (objects : list Object) i o :
  valid_method method → objects !! i = Some o →
  ∃ objects' o',
    step method objects = Some objects' ∧ objects' !! i = Some o'
    ∧ (glm.x (velocity o) = nan →
         glm.x (velocity o') = nan ∧ glm.x (position o') = nan)
    ∧ (glm.y (velocity o) = nan →
         glm.y (velocity o') = nan ∧ glm.y (position o') = nan).
Proof.
  intros Hm Ho.
  destruct (step_spec method objects Hm)
    as (objects1 & objects' & _ & Hk & Hstep & _ & Hint).
  destruct (kinematics_lookup objects objects1 i o Hk Ho)
    as (o1 & Ho1 & _ & _ & _ & Hvel).
  destruct (Hint i o1 Ho1) as (o' & Hio & Ho').
  exists objects', o'. split; [done |]. split; [done |].
  rewrite <- Hvel. by apply (integrate_object_nan method).
Qed.

(** X7: a NaN in a velocity component of a body is never cleared: after one
    step or more, with either method, that component of the body's velocity
    and of its position is NaN. *)
Theorem nan_velocity_is_absorbing method k (objects : list Object) i o :
  valid_method method → objects !! i = Some o →
  ∃ objects' o',
    state_after method (S k) objects = Some objects' ∧ objects' !! i = Some o'
    ∧ (glm.x (velocity o) = nan →
         glm.x (velocity o') = nan ∧ glm.x (position o') = nan)
    ∧ (glm.y (velocity o) = nan →
         glm.y (velocity o') = nan ∧ glm.y (position o') = nan).
Proof.
  intros Hm. revert objects o.
  induction k as [|k IH]; intros objects o Ho;
    destruct (step_keeps_nan method objects i o Hm Ho)
      as (objects1 & o1 & Hstep & Ho1 & Hx & Hy).
  - exists objects1, o1. cbn [state_after]. rewrite Hstep. done.
  - destruct (IH objects1 o1 Ho1) as (objects' & o' & Hrun & Ho' & Hx' & Hy').
    exists objects', o'. split.
    { change (state_after method (S (S k)) objects)
        with (step method objects ≫= state_after method (S k)).
      by rewrite Hstep. }
    split; [done |]. split; intros Hnan.
    + apply Hx'. by apply Hx.
    + apply Hy'. by apply Hy.
Qed.

Lemma nan_velocity_is_absorbing_witness :
  ∃ objects' o',
    state_after METHOD_NAIVE 2
      [mkObject "Earth" 5.9722e24 zero_vec (glm.Vec2 nan 0) zero_vec;
       mkObject "Moon" 7.342e22 (glm.Vec2 384405000.0 0.0) zero_vec zero_vec]
    = Some objects'
    ∧ objects' !! 0%nat = Some o'
    ∧ glm.x (velocity o') = nan ∧ glm.x (position o') = nan.
Proof.
  destruct (nan_velocity_is_absorbing METHOD_NAIVE 1
      [mkObject "Earth" 5.9722e24 zero_vec (glm.Vec2 nan 0) zero_vec;
       mkObject "Moon" 7.342e22 (glm.Vec2 384405000.0 0.0) zero_vec zero_vec]
      0 (mkObject "Earth" 5.9722e24 zero_vec (glm.Vec2 nan 0) zero_vec))
    as (objects' & o' & Hrun & Ho' & Hx & _).
  - left; reflexivity.
  - reflexivity.
  - exists objects', o'. split; [exact Hrun |]. split; [exact Ho' |].
    apply Hx. reflexivity.
Defined.

(** ** The shape of an output line *)

Lemma count_char_app c (s1 s2 : string) :
  count_char c (s1 ++ s2) = (count_char c s1 + count_char c s2)%nat.
Proof. induction s1 as [|a s1 IH]; simpl; [done |]. rewrite IH. lia. Qed.

Lemma all_chars_app P (s1 s2 : string) :
  all_chars P (s1 ++ s2) = all_chars P s1 && all_chars P s2.
Proof.
  induction s1 as [|a s1 IH]; simpl; [done |]. by rewrite IH, andb_assoc.
Qed.

Lemma all_chars_count P c (s : string) :
  P c = false → all_chars P s = true → count_char c s = 0%nat.
Proof.
  intros Hc. induction s as [|a s IH]; simpl; [done |].
  intros [Ha Hs]%andb_true_iff. rewrite (IH Hs).
  destruct (Ascii.eqb_spec a c) as [-> | _]; [congruence | done].
Qed.

Lemma digits_decimal w n : decimal_digits (digits w n).
Proof.
  revert n. induction w as [|w IH]; intros n; simpl; [constructor |].
  apply Forall_app. split; [apply IH |].
  constructor; [|constructor].
  assert (H := Z.mod_pos_bound n 10 ltac:(lia)). lia.
Qed.

Lemma strip_trailing_zeros_decimal ds :
  decimal_digits ds → decimal_digits (strip_trailing_zeros ds).
Proof.
  unfold decimal_digits.
  induction 1 as [|d ds Hd Hds IH]; simpl; [apply Forall_nil_2 |].
  destruct (strip_trailing_zeros ds) as [|t ts].
  - destruct (d =? 0); [apply Forall_nil_2 |].
    apply Forall_cons_2; [done | apply Forall_nil_2].
  - by apply Forall_cons_2.
Qed.

Lemma digit_char_number d : 0 ≤ d ≤ 9 → number_char (digit_char d) = true.
Proof.
  intros Hd.
  assert (Hcases : d = 0 ∨ d = 1 ∨ d = 2 ∨ d = 3 ∨ d = 4 ∨ d = 5 ∨ d = 6
                   ∨ d = 7 ∨ d = 8 ∨ d = 9) by lia.
  repeat (destruct Hcases as [-> | Hcases]; [vm_compute; reflexivity |]).
  subst d. vm_compute. reflexivity.
Qed.

Lemma show_digits_chars ds :
  decimal_digits ds → all_chars number_char (show_digits ds) = true.
Proof.
  unfold show_digits, decimal_digits.
  induction 1 as [|d ds Hd Hds IH]; [reflexivity |].
  cbn [map list_fmap String.string_of_list_ascii all_chars].
  change (all_chars number_char (String.string_of_list_ascii (map digit_char ds)) = true) in IH.
  by rewrite (digit_char_number d Hd), IH.
Qed.

Lemma show_fraction_chars ds :
  decimal_digits ds → all_chars number_char (show_fraction ds) = true.
Proof.
  intros Hds. unfold show_fraction.
  assert (Hs := strip_trailing_zeros_decimal ds Hds).
  destruct (strip_trailing_zeros ds) as [|t ts]; [done |].
  rewrite all_chars_app. by rewrite show_digits_chars.
Qed.

Lemma show_exponent_chars X : all_chars number_char (show_exponent X) = true.
Proof.
  unfold show_exponent. rewrite !all_chars_app.
  rewrite show_digits_chars by apply digits_decimal.
  by destruct (X <? 0).
Qed.

Lemma show_g_chars P n X : all_chars number_char (show_g P n X) = true.
Proof.
  unfold show_g. assert (Hds := digits_decimal (Z.to_nat P) n).
  destruct ((X <? -4) || (P <=? X)); [|destruct (X <? 0)];
    rewrite !all_chars_app.
  - rewrite show_digits_chars by (by apply Forall_take).
    rewrite show_fraction_chars by (by apply Forall_drop).
    by rewrite show_exponent_chars.
  - rewrite show_fraction_chars; [done |].
    apply Forall_app. split; [|done]. by apply Forall_replicate.
  - rewrite show_digits_chars by (by apply Forall_take).
    by rewrite show_fraction_chars by (by apply Forall_drop).
Qed.

Lemma format_double_chars v : all_chars number_char (format_double v) = true.
Proof.
  unfold format_double, format_g.
  destruct (Prim2SF v) as [[]|[]| |s m e]; try reflexivity.
  destruct (significand default_precision (magnitude_num m e) (magnitude_den e))
    as [n X].
  rewrite all_chars_app, show_g_chars. by destruct s.
Qed.

(** X8: every line written has exactly five tab characters and exactly one
    line feed, and each of its six fields consists of characters among
    [0123456789.e+-naif] only; so a line always splits at the tabs into
    exactly six fields. *)
Theorem line_has_six_fields (r : Row) :
  count_char tab_char (render r) = 5%nat
  ∧ count_char newline_char (render r) = 1%nat
  ∧ ∀ v, v ∈ fields r →
      all_chars number_char (format_double v) = true
      ∧ count_char tab_char (format_double v) = 0%nat
      ∧ count_char newline_char (format_double v) = 0%nat.
Proof.
  assert (Hfield : ∀ v, all_chars number_char (format_double v) = true
            ∧ count_char tab_char (format_double v) = 0%nat
            ∧ count_char newline_char (format_double v) = 0%nat).
  { intros v. assert (H := format_double_chars v). split; [done |].
    split; by apply (all_chars_count number_char). }
  unfold render. rewrite !count_char_app.
  destruct (Hfield (elapsed_seconds r)) as (_ & -> & ->).
  destruct (Hfield (body0_x r)) as (_ & -> & ->).
  destruct (Hfield (body0_y r)) as (_ & -> & ->).
  destruct (Hfield (body1_x r)) as (_ & -> & ->).
  destruct (Hfield (body1_y r)) as (_ & -> & ->).
  destruct (Hfield (distance r)) as (_ & -> & ->).
  split; [reflexivity |]. split; [reflexivity |]. intros v _. apply Hfield.
Qed.
